(** * Black-Scholes-Merton price and Greeks: the Python engine over the reals

    Shallow embedding of [src/python/bsm_greeks.py].  Python floats are read
    as real numbers (the data model of the specification is real-valued), so
    rounding and overflow are outside the model; what Python itself adds to
    the arithmetic is kept: [/] raises [ZeroDivisionError] on a zero divisor,
    [math.log] and [math.sqrt] raise [ValueError] outside their domain.
    [math.erf] is the error function, [2/sqrt(pi)] times the integral of
    [exp(-t^2)] from [0] to [x].  The day-count basis, a Python [int], is an
    integer injected into the reals where it divides.

    Where a statement depends on rounding, the assignments concerned are
    read a second time in IEEE binary64 arithmetic, as functions of the
    locals they use. *)

From Stdlib Require Import PrimFloat.
From Stdlib Require Import Reals Lra Lia ZArith String.

Open Scope R_scope.

(** ** Exceptions and results *)

Inductive PyExc : Type :=
| ZeroDivisionError
| ValueError.

Inductive result (A : Type) : Type :=
| Ok (a : A)
| Raise (e : PyExc).

Arguments Ok {A} a.
Arguments Raise {A} e.

Definition bind {A B : Type} (m : result A) (k : A -> result B) : result B :=
  match m with
  | Ok a => k a
  | Raise e => Raise e
  end.

Notation "x <- m ;; k" := (bind m (fun x => k))
  (at level 61, m at next level, right associativity).

(** ** Python's arithmetic primitives *)

(** [a / b] on floats. *)
Definition py_div (a b : R) : result R :=
  if Req_dec_T b 0 then Raise ZeroDivisionError else Ok (a / b).

(** [math.log]. *)
Definition math_log (x : R) : result R :=
  if Rlt_dec 0 x then Ok (ln x) else Raise ValueError.

(** [math.sqrt]. *)
Definition math_sqrt (x : R) : result R :=
  if Rle_dec 0 x then Ok (sqrt x) else Raise ValueError.

(** [math.exp]. *)
Definition math_exp (x : R) : R := exp x.

(** ** The error function *)

Definition gauss (t : R) : R := exp (- (t * t)).

Lemma gauss_continuity : continuity gauss.
Proof.
  unfold gauss.
  apply (continuity_comp (fun t => - (t * t)) exp).
  - apply continuity_opp.
    apply (continuity_mult id id); apply derivable_continuous, derivable_id.
  - apply derivable_continuous, derivable_exp.
Qed.

Lemma gauss_integrable (a b : R) : Riemann_integrable gauss a b.
Proof.
  destruct (Rle_dec a b) as [Hab | Hab].
  - apply continuity_implies_RiemannInt; [exact Hab |].
    intros x _. apply gauss_continuity.
  - apply RiemannInt_P1.
    apply continuity_implies_RiemannInt; [lra |].
    intros x _. apply gauss_continuity.
Qed.

(** Integral of [exp(-t^2)] from [0] to [x]. *)
Definition gauss_int (x : R) : R := RiemannInt (gauss_integrable 0 x).

(** [math.erf]. *)
Definition erf (x : R) : R := 2 / sqrt PI * gauss_int x.

(** ** The source's functions *)

(** [norm_cdf], line 5. *)
Definition norm_cdf (x : R) : result R :=
  s <- math_sqrt 2 ;;
  y <- py_div x s ;;
  Ok (0.5 * (1.0 + erf y)).

(** [norm_pdf], line 9. *)
Definition norm_pdf (x : R) : result R :=
  s <- math_sqrt (2 * PI) ;;
  py_div (math_exp (-0.5 * x * x)) s.

Record BSMInputs : Type := mkBSMInputs {
  S0 : R;
  K : R;
  T : R;
  sigma : R;
  r : R;
  q : R;
  opt_type : string
}.

Record BSMOutputs : Type := mkBSMOutputs {
  price : R;
  delta : R;
  gamma : R;
  vega_per_vol : R;
  vega_per_volpt : R;
  theta_per_year : R;
  theta_per_day : R;
  rho_per_1 : R;
  rho_per_bp : R;
  phi_per_1 : R;
  phi_per_bp : R
}.

(** The guards of lines 41-44. *)
Definition guard_T (t : R) : R := if Rlt_dec t 1e-6 then 1e-6 else t.
Definition guard_sigma (s : R) : R := if Rlt_dec s 1e-8 then 1e-8 else s.

(** The values assigned in one arm of the [if] at line 58. *)
Record Branch : Type := mkBranch {
  b_price : R;
  b_delta : R;
  b_theta : R;
  b_rho : R;
  b_phi : R
}.

(** [price_and_greeks_bsm], line 36.  The local names follow the source;
    [T'] and [sigma'] are [T] and [sigma] after the guards. *)
Definition price_and_greeks_bsm (inputs : BSMInputs) (theta_basis : Z)
  : result BSMOutputs :=
  let S0 := S0 inputs in
  let K := K inputs in
  let r := r inputs in
  let q := q inputs in
  let opt_type := opt_type inputs in
  let T' := guard_T (T inputs) in
  let sigma' := guard_sigma (sigma inputs) in
  (* line 46 *)
  ratio <- py_div S0 K ;;
  lg <- math_log ratio ;;
  sq <- math_sqrt T' ;;
  d1 <- py_div (lg + (r - q + 0.5 * sigma' ^ 2) * T') (sigma' * sq) ;;
  (* line 47 *)
  sq <- math_sqrt T' ;;
  let d2 := d1 - sigma' * sq in
  let exp_qT := math_exp (- q * T') in
  let exp_rT := math_exp (- r * T') in
  N_d1 <- norm_cdf d1 ;;
  N_d2 <- norm_cdf d2 ;;
  N_md1 <- norm_cdf (- d1) ;;
  N_md2 <- norm_cdf (- d2) ;;
  n_d1 <- norm_pdf d1 ;;
  br <-
    (if String.eqb opt_type "call" then
       sq <- math_sqrt T' ;;
       t <- py_div (- S0 * exp_qT * n_d1 * sigma') (2 * sq) ;;
       Ok (mkBranch
             (S0 * exp_qT * N_d1 - K * exp_rT * N_d2)
             (exp_qT * N_d1)
             (t + q * S0 * exp_qT * N_d1 - r * K * exp_rT * N_d2)
             (K * T' * exp_rT * N_d2)
             (- T' * S0 * exp_qT * N_d1))
     else
       sq <- math_sqrt T' ;;
       t <- py_div (- S0 * exp_qT * n_d1 * sigma') (2 * sq) ;;
       Ok (mkBranch
             (K * exp_rT * N_md2 - S0 * exp_qT * N_md1)
             (exp_qT * N_d1 - exp_qT)
             (t - q * S0 * exp_qT * N_md1 + r * K * exp_rT * N_md2)
             (- K * T' * exp_rT * N_md2)
             (T' * S0 * exp_qT * N_md1))) ;;
  (* line 71 *)
  sq <- math_sqrt T' ;;
  gamma <- py_div (exp_qT * n_d1) (S0 * sigma' * sq) ;;
  sq <- math_sqrt T' ;;
  let vega := S0 * exp_qT * n_d1 * sq in
  let vega_per_volpt := vega * 0.01 in
  theta_per_day <- py_div (b_theta br) (IZR theta_basis) ;;
  rho_per_bp <- py_div (b_rho br) 10000.0 ;;
  phi_per_bp <- py_div (b_phi br) 10000.0 ;;
  Ok (mkBSMOutputs (b_price br) (b_delta br) gamma vega vega_per_volpt
        (b_theta br) theta_per_day (b_rho br) rho_per_bp (b_phi br) phi_per_bp).


(** ** Closed forms

    The quantities of the valuation formulas as plain real functions; the
    theorems below relate what [price_and_greeks_bsm] returns to them. *)

(** Standard normal distribution function [N] and density [n]. *)
Definition Ncdf (x : R) : R := 0.5 * (1 + erf (x / sqrt 2)).
Definition npdf (x : R) : R := exp (- 0.5 * x * x) / sqrt (2 * PI).

Definition d1_of (S0 K T sigma r q : R) : R :=
  (ln (S0 / K) + (r - q + 0.5 * sigma ^ 2) * T) / (sigma * sqrt T).

Definition d2_of (S0 K T sigma r q : R) : R :=
  d1_of S0 K T sigma r q - sigma * sqrt T.

(** Call price for effective (guarded) [T] and [sigma]. *)
Definition call_price (S0 K T sigma r q : R) : R :=
  S0 * exp (- q * T) * Ncdf (d1_of S0 K T sigma r q)
  - K * exp (- r * T) * Ncdf (d2_of S0 K T sigma r q).

Definition put_price (S0 K T sigma r q : R) : R :=
  K * exp (- r * T) * Ncdf (- d2_of S0 K T sigma r q)
  - S0 * exp (- q * T) * Ncdf (- d1_of S0 K T sigma r q).

(** The inputs on which no operation of the engine raises. *)
Definition evaluable (i : BSMInputs) (theta_basis : Z) : Prop :=
  K i <> 0 /\ 0 < S0 i / K i /\ theta_basis <> 0%Z.

(** The record of closed-form values, written directly from the formulas
    rather than by following the source's control flow.  It is not part of
    the model of the engine: [eval_closed_form] proves that the engine
    returns it on every [evaluable] input. *)
Definition closed_form (i : BSMInputs) (theta_basis : Z) : BSMOutputs :=
  let T' := guard_T (T i) in
  let sigma' := guard_sigma (sigma i) in
  let d1 := d1_of (S0 i) (K i) T' sigma' (r i) (q i) in
  let d2 := d2_of (S0 i) (K i) T' sigma' (r i) (q i) in
  let exp_qT := exp (- q i * T') in
  let exp_rT := exp (- r i * T') in
  let common := - S0 i * exp_qT * npdf d1 * sigma' / (2 * sqrt T') in
  let is_call := String.eqb (opt_type i) "call" in
  let price :=
    if is_call then S0 i * exp_qT * Ncdf d1 - K i * exp_rT * Ncdf d2
    else K i * exp_rT * Ncdf (- d2) - S0 i * exp_qT * Ncdf (- d1) in
  let delta :=
    if is_call then exp_qT * Ncdf d1 else exp_qT * Ncdf d1 - exp_qT in
  let theta :=
    if is_call
    then common + q i * S0 i * exp_qT * Ncdf d1 - r i * K i * exp_rT * Ncdf d2
    else common - q i * S0 i * exp_qT * Ncdf (- d1)
         + r i * K i * exp_rT * Ncdf (- d2) in
  let rho :=
    if is_call then K i * T' * exp_rT * Ncdf d2
    else - K i * T' * exp_rT * Ncdf (- d2) in
  let phi :=
    if is_call then - T' * S0 i * exp_qT * Ncdf d1
    else T' * S0 i * exp_qT * Ncdf (- d1) in
  let vega := S0 i * exp_qT * npdf d1 * sqrt T' in
  mkBSMOutputs price delta
    (exp_qT * npdf d1 / (S0 i * sigma' * sqrt T'))
    vega (vega * 0.01)
    theta (theta / IZR theta_basis)
    rho (rho / 10000.0)
    phi (phi / 10000.0).

(** Replace one field of an input record. *)
Definition with_T (i : BSMInputs) (t : R) : BSMInputs :=
  mkBSMInputs (S0 i) (K i) t (sigma i) (r i) (q i) (opt_type i).
Definition with_sigma (i : BSMInputs) (s : R) : BSMInputs :=
  mkBSMInputs (S0 i) (K i) (T i) s (r i) (q i) (opt_type i).
Definition with_S0 (i : BSMInputs) (s : R) : BSMInputs :=
  mkBSMInputs s (K i) (T i) (sigma i) (r i) (q i) (opt_type i).
Definition with_K (i : BSMInputs) (k : R) : BSMInputs :=
  mkBSMInputs (S0 i) k (T i) (sigma i) (r i) (q i) (opt_type i).
Definition with_opt_type (i : BSMInputs) (o : string) : BSMInputs :=
  mkBSMInputs (S0 i) (K i) (T i) (sigma i) (r i) (q i) o.

(** The reference scenario of the source's [__main__]. *)
Definition example_inputs : BSMInputs :=
  mkBSMInputs 100.0 100.0 0.5 0.20 0.03 0.01 "call".

(** Auxiliary quantities for the bound on [gauss_int]: the nodes [i / (n+1)]
    of the subdivision of [[0,1]] into [n+1] cells, the weights
    [1 + node^2], and a function whose value at [0] is a left Riemann sum of
    [1 / (1 + t^2)]. *)
Definition node (n i : nat) : R := INR i / INR (S n).
Definition wgt (n i : nat) : R := 1 + Rsqr (node n i).
Definition aux_term (n i : nat) (y : R) : R :=
  / wgt n i * exp (- wgt n i * Rsqr y).
Definition gauss_sq_aux (n : nat) (y : R) : R :=
  Rsqr (gauss_int y) + / INR (S n) * sum_f_R0 (fun i => aux_term n i y) n.

(** ** The delta assignments in binary64

    Lines 60 and 66 as the program evaluates them, in IEEE binary64 with
    round to nearest even, as functions of the locals [exp_qT] and
    [N_d1]. *)
Definition delta_call_b64 (exp_qT N_d1 : float) : float :=
  (exp_qT * N_d1)%float.
Definition delta_put_b64 (exp_qT N_d1 : float) : float :=
  (exp_qT * N_d1 - exp_qT)%float.

(** The doubles [math.exp(-q * T)] and [norm_cdf(d1)] of the evaluation at
    [S0 = K = 100], [T = 0.25], [sigma = 0.1], [r = 0], [q = 0.01]:
    [0.9975031223974601] and [0.49002748180476197]. *)
Definition ref_exp_qT : float := 0x1.feb8bab0b5bf7p-1%float.
Definition ref_N_d1 : float := 0x1.f5c9c3a1f8832p-2%float.

(** ** Reading the engine's outputs as functions of its inputs *)

(** The value of a field of the returned record, [0] when the engine
    raises; used to speak of an output as a real function of one input. *)
Definition returned (f : BSMOutputs -> R) (m : result BSMOutputs) : R :=
  match m with
  | Ok out => f out
  | Raise _ => 0
  end.

(** The value a primitive returns, [0] when it raises. *)
Definition value (m : result R) : R :=
  match m with
  | Ok v => v
  | Raise _ => 0
  end.

Definition with_r (i : BSMInputs) (x : R) : BSMInputs :=
  mkBSMInputs (S0 i) (K i) (T i) (sigma i) x (q i) (opt_type i).
Definition with_q (i : BSMInputs) (x : R) : BSMInputs :=
  mkBSMInputs (S0 i) (K i) (T i) (sigma i) (r i) x (opt_type i).

(** Price of either branch for effective [T] and [sigma]. *)
Definition bs_price (is_call : bool) (S0 K T sigma r q : R) : R :=
  if is_call then call_price S0 K T sigma r q
  else put_price S0 K T sigma r q.

(** Delta of either branch for effective [T] and [sigma]. *)
Definition bs_delta (is_call : bool) (S0 K T sigma r q : R) : R :=
  if is_call then exp (- q * T) * Ncdf (d1_of S0 K T sigma r q)
  else exp (- q * T) * Ncdf (d1_of S0 K T sigma r q) - exp (- q * T).

(** The companion of [gauss_sq_aux] on the right end points of the cells. *)
Definition gauss_sq_aux_r (n : nat) (y : R) : R :=
  Rsqr (gauss_int y)
  + / INR (S n) * sum_f_R0 (fun i => aux_term n (S i) y) n.

(** ** Calculus helpers *)

Section MeanValue.

Variables f f' : R -> R.
Variables a b : R.
Hypothesis Hab : a <= b.
Hypothesis Hderiv : forall c, a <= c <= b -> derivable_pt_lim f c (f' c).

(** A bound on the derivative bounds the increment. *)
Lemma increment_le (M : R) :
  (forall c, a < c < b -> f' c <= M) -> f b - f a <= M * (b - a).
Proof.
  intros HM.
  destruct Hab as [Hlt | Heq].
  - destruct (MVT_cor2 f f' a b Hlt Hderiv) as [c [Hc Hin]].
    rewrite Hc. apply Rmult_le_compat_r; [lra | auto].
  - subst b. lra.
Qed.

Lemma increment_ge (m : R) :
  (forall c, a < c < b -> m <= f' c) -> m * (b - a) <= f b - f a.
Proof.
  intros Hm.
  destruct Hab as [Hlt | Heq].
  - destruct (MVT_cor2 f f' a b Hlt Hderiv) as [c [Hc Hin]].
    rewrite Hc. apply Rmult_le_compat_r; [lra | auto].
  - subst b. lra.
Qed.

End MeanValue.

Lemma deriv_nonneg_incr (f f' : R -> R) (a b : R) :
  a <= b ->
  (forall c, a <= c <= b -> derivable_pt_lim f c (f' c)) ->
  (forall c, a < c < b -> 0 <= f' c) ->
  f a <= f b.
Proof.
  intros Hab Hd Hpos.
  pose proof (increment_ge f f' a b Hab Hd 0 Hpos). lra.
Qed.

Lemma deriv_nonpos_decr (f f' : R -> R) (a b : R) :
  a <= b ->
  (forall c, a <= c <= b -> derivable_pt_lim f c (f' c)) ->
  (forall c, a < c < b -> f' c <= 0) ->
  f b <= f a.
Proof.
  intros Hab Hd Hneg.
  pose proof (increment_le f f' a b Hab Hd 0 Hneg). lra.
Qed.

Lemma deriv_zero_const (f : R -> R) :
  (forall x, derivable_pt_lim f x 0) -> forall x y, f x = f y.
Proof.
  intros Hd.
  assert (Hle : forall u v, u <= v -> f u = f v).
  { intros u v Huv.
    pose proof (increment_le f (fun _ => 0) u v Huv (fun c _ => Hd c) 0
                  (fun _ _ => Rle_refl 0)).
    pose proof (increment_ge f (fun _ => 0) u v Huv (fun c _ => Hd c) 0
                  (fun _ _ => Rle_refl 0)).
    lra. }
  intros x y. destruct (Rle_dec x y) as [H | H].
  - apply Hle, H.
  - symmetry. apply Hle. lra.
Qed.

(** ** The integral of the Gaussian *)

Lemma gauss_pos (t : R) : 0 < gauss t.
Proof. apply exp_pos. Qed.

Lemma gauss_le_1 (t : R) : gauss t <= 1.
Proof.
  unfold gauss. rewrite <- exp_0.
  destruct (Req_dec (t * t) 0) as [H0 | H0].
  - rewrite H0, Ropp_0. apply Rle_refl.
  - left. apply exp_increasing. nra.
Qed.

Lemma gauss_even (t : R) : gauss (- t) = gauss t.
Proof. unfold gauss. f_equal. ring. Qed.

Lemma gauss_decr (u v : R) : 0 <= u -> u <= v -> gauss v <= gauss u.
Proof.
  intros Hu Huv. unfold gauss.
  destruct (Req_dec (u * u) (v * v)) as [He | Hne].
  - rewrite He. apply Rle_refl.
  - left. apply exp_increasing. nra.
Qed.

Lemma gauss_int_0 : gauss_int 0 = 0.
Proof. unfold gauss_int. apply RiemannInt_P9. Qed.

(** Chasles: the integral from [0] is a difference of integrals from [a]. *)
Lemma gauss_int_from (a x : R) :
  gauss_int x =
  RiemannInt (gauss_integrable a x) - RiemannInt (gauss_integrable a 0).
Proof.
  unfold gauss_int.
  rewrite <- (RiemannInt_P26 (gauss_integrable a 0) (gauss_integrable 0 x)
                (gauss_integrable a x)).
  ring.
Qed.

(** Fundamental theorem of calculus for [gauss_int], at every point. *)
Lemma gauss_int_deriv (x : R) : derivable_pt_lim gauss_int x (gauss x).
Proof.
  set (a := x - 1). set (b := x + 1).
  assert (Hle : a <= b) by (unfold a, b; lra).
  assert (C0 : forall y, a <= y <= b -> continuity_pt gauss y)
    by (intros y _; apply gauss_continuity).
  assert (Hin : a < x < b) by (unfold a, b; lra).
  pose proof (RiemannInt_P27 Hle C0 Hin) as HP.
  apply (derivable_pt_lim_locally_ext
           (fun y => primitive Hle (FTC_P1 Hle C0) y
                     - RiemannInt (gauss_integrable a 0))
           gauss_int x a b (gauss x) Hin).
  - intros z Hz. rewrite (gauss_int_from a z). f_equal.
    unfold primitive.
    destruct (Rle_dec a z) as [H1 | H1]; [| lra].
    destruct (Rle_dec z b) as [H2 | H2]; [| lra].
    apply RiemannInt_P5.
  - replace (gauss x) with (gauss x - 0) by ring.
    apply (derivable_pt_lim_minus _ (fct_cte _)); [exact HP |].
    apply derivable_pt_lim_const.
Qed.

Lemma gauss_int_odd (x : R) : gauss_int (- x) = - gauss_int x.
Proof.
  assert (Hd : forall y, derivable_pt_lim
                 (fun y => gauss_int y + gauss_int (- y)) y 0).
  { intros y.
    replace 0 with (gauss y + - gauss y) by ring.
    apply (derivable_pt_lim_plus gauss_int (mirr_fct gauss_int)).
    - apply gauss_int_deriv.
    - apply derivable_pt_lim_mirr_fwd. rewrite Ropp_involutive.
      rewrite <- (gauss_even y). apply gauss_int_deriv. }
  pose proof (deriv_zero_const _ Hd x 0) as H. simpl in H.
  rewrite Ropp_0, gauss_int_0 in H. lra.
Qed.

Lemma gauss_int_incr (u v : R) : u <= v -> gauss_int u <= gauss_int v.
Proof.
  intros Huv.
  apply (deriv_nonneg_incr gauss_int gauss u v Huv).
  - intros c _. apply gauss_int_deriv.
  - intros c _. left. apply gauss_pos.
Qed.

Lemma gauss_int_nonneg (x : R) : 0 <= x -> 0 <= gauss_int x.
Proof. intros Hx. rewrite <- gauss_int_0. apply gauss_int_incr, Hx. Qed.

(** On [0 <= u <= v] the integrand is at most [gauss u]. *)
Lemma gauss_int_step (u v : R) :
  0 <= u -> u <= v -> gauss_int v - gauss_int u <= gauss u * (v - u).
Proof.
  intros Hu Huv.
  apply (increment_le gauss_int gauss u v Huv).
  - intros c _. apply gauss_int_deriv.
  - intros c Hc. apply gauss_decr; lra.
Qed.

(** ** Finite sums *)

Lemma sum_telescope (a : nat -> R) (n : nat) :
  sum_f_R0 (fun i => a (S i) - a i) n = a (S n) - a 0%nat.
Proof.
  induction n as [| n IH]; simpl.
  - reflexivity.
  - rewrite IH. ring.
Qed.

Lemma derivable_pt_lim_sum (f f' : nat -> R -> R) (x : R) (n : nat) :
  (forall i, derivable_pt_lim (f i) x (f' i x)) ->
  derivable_pt_lim (fun y => sum_f_R0 (fun i => f i y) n) x
    (sum_f_R0 (fun i => f' i x) n).
Proof.
  intros Hd. induction n as [| n IH]; simpl.
  - apply (derivable_pt_lim_ext (f 0%nat)); [reflexivity | apply Hd].
  - apply (derivable_pt_lim_plus
             (fun y => sum_f_R0 (fun i => f i y) n) (f (S n))).
    + exact IH.
    + apply Hd.
Qed.

(** ** The Gaussian integral is at most [sqrt PI / 2]

    For the subdivision of [[0,1]] into [S n] equal parts, the function
    [gauss_sq_aux n] below is non-increasing on the non-negative reals: its
    derivative compares [gauss_int] with a left Riemann sum of the decreasing
    integrand.  At [0] it is a left Riemann sum of [1/(1+t^2)], which exceeds
    [atan 1] by at most [1 / (2 (S n))]. *)

Section GaussBound.

Variable n : nat.

Lemma cells_pos : 0 < INR (S n).
Proof. apply lt_0_INR. lia. Qed.

Lemma node_0 : node n 0 = 0.
Proof. unfold node. simpl. unfold Rdiv. ring. Qed.

Lemma node_last : node n (S n) = 1.
Proof. unfold node. pose proof cells_pos. field. lra. Qed.

Lemma node_nonneg (i : nat) : 0 <= node n i.
Proof.
  unfold node. pose proof cells_pos.
  apply Rmult_le_pos; [apply pos_INR | left; apply Rinv_0_lt_compat; lra].
Qed.

Lemma node_step (i : nat) : node n (S i) - node n i = / INR (S n).
Proof.
  unfold node. rewrite (S_INR i). pose proof cells_pos.
  field. lra.
Qed.

Lemma wgt_pos (i : nat) : 0 < wgt n i.
Proof. unfold wgt. pose proof (Rle_0_sqr (node n i)). lra. Qed.

Lemma aux_term_nonneg (i : nat) (y : R) : 0 <= aux_term n i y.
Proof.
  unfold aux_term. apply Rmult_le_pos.
  - left. apply Rinv_0_lt_compat, wgt_pos.
  - left. apply exp_pos.
Qed.

Lemma aux_term_deriv (i : nat) (y : R) :
  derivable_pt_lim (aux_term n i) y
    (- 2 * gauss y * (gauss (y * node n i) * y)).
Proof.
  pose proof (wgt_pos i) as Hw.
  replace (- 2 * gauss y * (gauss (y * node n i) * y))
    with (/ wgt n i * (exp (- wgt n i * Rsqr y) * (- wgt n i * (2 * y)))).
  - unfold aux_term.
    apply (derivable_pt_lim_scal
             (comp exp (mult_real_fct (- wgt n i) Rsqr)) (/ wgt n i)).
    apply (derivable_pt_lim_comp (mult_real_fct (- wgt n i) Rsqr) exp).
    + apply derivable_pt_lim_scal, derivable_pt_lim_Rsqr.
    + apply derivable_pt_lim_exp.
  - unfold gauss. 
    replace (- wgt n i * Rsqr y)
      with (- (y * y) + - (y * node n i * (y * node n i)))
      by (unfold wgt, Rsqr; ring).
    rewrite exp_plus. field. lra.
Qed.

Lemma gauss_sq_aux_deriv (y : R) :
  derivable_pt_lim (gauss_sq_aux n) y
    (2 * gauss y *
     (gauss_int y
      - / INR (S n) * sum_f_R0 (fun i => gauss (y * node n i) * y) n)).
Proof.
  replace (2 * gauss y *
     (gauss_int y
      - / INR (S n) * sum_f_R0 (fun i => gauss (y * node n i) * y) n))
    with ((gauss y * gauss_int y + gauss_int y * gauss y)
          + / INR (S n) * sum_f_R0
                    (fun i => - 2 * gauss y * (gauss (y * node n i) * y)) n).
  - unfold gauss_sq_aux.
    apply (derivable_pt_lim_plus
             (gauss_int * gauss_int)%F
             (mult_real_fct (/ INR (S n))
                (fun y => sum_f_R0 (fun i => aux_term n i y) n))).
    + apply derivable_pt_lim_mult; apply gauss_int_deriv.
    + apply derivable_pt_lim_scal.
      apply (derivable_pt_lim_sum (aux_term n)
               (fun i y => - 2 * gauss y * (gauss (y * node n i) * y))).
      intros i. apply aux_term_deriv.
  - assert (Hs : sum_f_R0
                   (fun i => - 2 * gauss y * (gauss (y * node n i) * y)) n
                 = - 2 * gauss y
                   * sum_f_R0 (fun i => gauss (y * node n i) * y) n).
    { rewrite scal_sum. apply sum_eq. intros i _. ring. }
    rewrite Hs. ring.
Qed.

(** [gauss_int] is below the left Riemann sum on [[0,y]]. *)
Lemma gauss_int_left_sum (y : R) :
  0 <= y ->
  gauss_int y <= / INR (S n) * sum_f_R0 (fun i => gauss (y * node n i) * y) n.
Proof.
  intros Hy.
  pose proof (sum_telescope (fun i => gauss_int (y * node n i)) n) as Htel.
  simpl in Htel.
  rewrite node_last, node_0, Rmult_1_r, Rmult_0_r, gauss_int_0,
    Rminus_0_r in Htel.
  rewrite <- Htel.
  rewrite scal_sum.
  apply sum_Rle. intros i _.
  pose proof (node_nonneg i) as Hi.
  pose proof (node_step i) as Hs.
  pose proof cells_pos as HN.
  assert (HiN : 0 < / INR (S n)) by (apply Rinv_0_lt_compat; exact HN).
  pose proof (gauss_int_step (y * node n i) (y * node n (S i))) as Hst.
  replace (gauss (y * node n i) * y * / INR (S n))
    with (gauss (y * node n i) * (y * node n (S i) - y * node n i)).
  - apply Hst; nra.
  - rewrite <- Rmult_minus_distr_l, Hs. ring.
Qed.

Lemma gauss_sq_aux_decr (y : R) :
  0 <= y -> gauss_sq_aux n y <= gauss_sq_aux n 0.
Proof.
  intros Hy.
  apply (deriv_nonpos_decr (gauss_sq_aux n)
           (fun y => 2 * gauss y *
              (gauss_int y
               - / INR (S n) * sum_f_R0 (fun i => gauss (y * node n i) * y) n))
           0 y Hy).
  - intros c _. apply gauss_sq_aux_deriv.
  - intros c Hc.
    pose proof (gauss_int_left_sum c (Rlt_le _ _ (proj1 Hc))).
    pose proof (gauss_pos c). nra.
Qed.

(** One cell of the left Riemann sum of [1/(1+t^2)]. *)
Lemma atan_cell (i : nat) :
  / INR (S n) * / wgt n i <=
  (atan (node n (S i)) - atan (node n i))
  + / INR (S n) * (/ wgt n i - / wgt n (S i)).
Proof.
  pose proof (node_nonneg i) as Hi.
  pose proof (node_step i) as Hs.
  pose proof cells_pos as HN.
  assert (HiN : 0 < / INR (S n)) by (apply Rinv_0_lt_compat; exact HN).
  assert (Hle : node n i <= node n (S i)) by lra.
  pose proof (increment_ge atan (fun c => / (1 + c ^ 2))
                (node n i) (node n (S i)) Hle
                (fun c _ => derivable_pt_lim_atan c) (/ wgt n (S i))) as Hinc.
  rewrite Hs in Hinc.
  assert (Hcell : / wgt n (S i) * / INR (S n)
                  <= atan (node n (S i)) - atan (node n i)).
  { apply Hinc. intros c Hc.
    apply Rinv_le_contravar.
    - pose proof (pow2_ge_0 c). lra.
    - unfold wgt, Rsqr. nra. }
  lra.
Qed.

Lemma gauss_sq_aux_0 : gauss_sq_aux n 0 <= PI / 4 + / (2 * INR (S n)).
Proof.
  unfold gauss_sq_aux. rewrite gauss_int_0, Rsqr_0, Rplus_0_l.
  assert (Heq : sum_f_R0 (fun i => aux_term n i 0) n
                = sum_f_R0 (fun i => / wgt n i) n).
  { apply sum_eq. intros i _. unfold aux_term.
    rewrite Rsqr_0, Rmult_0_r, exp_0. ring. }
  rewrite Heq, scal_sum.
  apply Rle_trans with
    (sum_f_R0 (fun i => (atan (node n (S i)) + - / INR (S n) * / wgt n (S i))
                        - (atan (node n i) + - / INR (S n) * / wgt n i)) n).
  - apply sum_Rle. intros i _. pose proof (atan_cell i). lra.
  - rewrite (sum_telescope
               (fun i => atan (node n i) + - / INR (S n) * / wgt n i)).
    unfold wgt. rewrite node_last, node_0, atan_1, atan_0, Rsqr_0, Rsqr_1.
    pose proof cells_pos as HN.
    right. field. lra.
Qed.

Lemma gauss_int_sq_le (y : R) :
  0 <= y -> Rsqr (gauss_int y) <= PI / 4 + / (2 * INR (S n)).
Proof.
  intros Hy.
  apply Rle_trans with (gauss_sq_aux n y).
  - unfold gauss_sq_aux.
    pose proof cells_pos as HN.
    assert (0 <= / INR (S n) * sum_f_R0 (fun i => aux_term n i y) n).
    { apply Rmult_le_pos.
      - left. apply Rinv_0_lt_compat. exact HN.
      - apply cond_pos_sum. intros i. apply aux_term_nonneg. }
    lra.
  - apply Rle_trans with (gauss_sq_aux n 0).
    + apply gauss_sq_aux_decr, Hy.
    + apply gauss_sq_aux_0.
Qed.

End GaussBound.

Lemma gauss_int_sq_bound (y : R) : 0 <= y -> Rsqr (gauss_int y) <= PI / 4.
Proof.
  intros Hy.
  destruct (Rle_dec (Rsqr (gauss_int y)) (PI / 4)) as [H | H]; [exact H |].
  exfalso.
  destruct (archimed_cor1 (Rsqr (gauss_int y) - PI / 4)) as [m [Hm Hpos]];
    [lra |].
  destruct m as [| m]; [lia |].
  pose proof (gauss_int_sq_le m y Hy) as Hb.
  assert (HN : 0 < INR (S m)) by (apply lt_0_INR; lia).
  assert (/ (2 * INR (S m)) <= / INR (S m)).
  { apply Rinv_le_contravar; lra. }
  lra.
Qed.

Lemma sqrt_PI_pos : 0 < sqrt PI.
Proof. apply sqrt_lt_R0, PI_RGT_0. Qed.

Lemma gauss_int_le (y : R) : gauss_int y <= sqrt PI / 2.
Proof.
  pose proof sqrt_PI_pos as Hs.
  pose proof (sqrt_sqrt PI (Rlt_le _ _ PI_RGT_0)) as Hss.
  destruct (Rle_dec 0 y) as [Hy | Hy].
  - pose proof (gauss_int_sq_bound y Hy) as Hb. unfold Rsqr in Hb.
    pose proof (gauss_int_nonneg y Hy). nra.
  - pose proof (gauss_int_nonneg (- y)) as Hn.
    rewrite gauss_int_odd in Hn. lra.
Qed.

Lemma erf_odd (x : R) : erf (- x) = - erf x.
Proof. unfold erf. rewrite gauss_int_odd. ring. Qed.

Lemma erf_le_1 (x : R) : erf x <= 1.
Proof.
  unfold erf. pose proof sqrt_PI_pos as Hs.
  pose proof (gauss_int_le x) as Hb.
  apply Rmult_le_reg_l with (sqrt PI / 2); [lra |].
  replace (sqrt PI / 2 * (2 / sqrt PI * gauss_int x)) with (gauss_int x)
    by (field; lra).
  lra.
Qed.

Lemma erf_ge_m1 (x : R) : -1 <= erf x.
Proof. pose proof (erf_le_1 (- x)) as H. rewrite erf_odd in H. lra. Qed.

Lemma erf_deriv (x : R) :
  derivable_pt_lim erf x (2 / sqrt PI * gauss x).
Proof.
  unfold erf.
  apply (derivable_pt_lim_scal gauss_int (2 / sqrt PI)).
  apply gauss_int_deriv.
Qed.

(** ** The primitives on their domains *)

Lemma py_div_ok (a b : R) : b <> 0 -> py_div a b = Ok (a / b).
Proof.
  intros Hb. unfold py_div. destruct (Req_dec_T b 0); [contradiction | easy].
Qed.

Lemma py_div_zero (a : R) : py_div a 0 = Raise ZeroDivisionError.
Proof.
  unfold py_div. destruct (Req_dec_T 0 0); [reflexivity | contradiction].
Qed.

Lemma math_log_ok (x : R) : 0 < x -> math_log x = Ok (ln x).
Proof.
  intros Hx. unfold math_log. destruct (Rlt_dec 0 x); [easy | contradiction].
Qed.

Lemma math_log_domain (x : R) : x <= 0 -> math_log x = Raise ValueError.
Proof.
  intros Hx. unfold math_log. destruct (Rlt_dec 0 x); [lra | reflexivity].
Qed.

Lemma math_sqrt_ok (x : R) : 0 <= x -> math_sqrt x = Ok (sqrt x).
Proof.
  intros Hx. unfold math_sqrt. destruct (Rle_dec 0 x); [easy | contradiction].
Qed.

Lemma guard_T_floor (t : R) : 1e-6 <= guard_T t.
Proof. unfold guard_T. destruct (Rlt_dec t 1e-6); lra. Qed.

Lemma guard_sigma_floor (s : R) : 1e-8 <= guard_sigma s.
Proof. unfold guard_sigma. destruct (Rlt_dec s 1e-8); lra. Qed.

Lemma guard_T_below (t : R) : t < 1e-6 -> guard_T t = 1e-6.
Proof.
  intros Ht. unfold guard_T. destruct (Rlt_dec t 1e-6); [easy | contradiction].
Qed.

Lemma guard_T_above (t : R) : 1e-6 <= t -> guard_T t = t.
Proof. intros Ht. unfold guard_T. destruct (Rlt_dec t 1e-6); [lra | easy]. Qed.

Lemma guard_sigma_below (s : R) : s < 1e-8 -> guard_sigma s = 1e-8.
Proof.
  intros Hs. unfold guard_sigma.
  destruct (Rlt_dec s 1e-8); [easy | contradiction].
Qed.

Lemma guard_sigma_above (s : R) : 1e-8 <= s -> guard_sigma s = s.
Proof.
  intros Hs. unfold guard_sigma. destruct (Rlt_dec s 1e-8); [lra | easy].
Qed.

Lemma sqrt_guard_T_pos (t : R) : 0 < sqrt (guard_T t).
Proof. apply sqrt_lt_R0. pose proof (guard_T_floor t). lra. Qed.

Lemma norm_cdf_eq (x : R) : norm_cdf x = Ok (Ncdf x).
Proof.
  unfold norm_cdf.
  rewrite math_sqrt_ok by lra. simpl.
  rewrite py_div_ok.
  - simpl. unfold Ncdf. do 2 f_equal. lra.
  - pose proof (sqrt_lt_R0 2). lra.
Qed.

Lemma norm_pdf_eq (x : R) : norm_pdf x = Ok (npdf x).
Proof.
  pose proof PI_RGT_0 as Hpi.
  unfold norm_pdf.
  rewrite math_sqrt_ok by lra. simpl.
  rewrite py_div_ok.
  - reflexivity.
  - pose proof (sqrt_lt_R0 (2 * PI)). lra.
Qed.

(** ** What [price_and_greeks_bsm] returns *)

Lemma evaluable_S0 (i : BSMInputs) (b : Z) : evaluable i b -> S0 i <> 0.
Proof.
  intros (HK & Hpos & _) H0. rewrite H0 in Hpos. unfold Rdiv in Hpos.
  rewrite Rmult_0_l in Hpos. lra.
Qed.

Lemma eval_closed_form (i : BSMInputs) (theta_basis : Z) :
  evaluable i theta_basis ->
  price_and_greeks_bsm i theta_basis = Ok (closed_form i theta_basis).
Proof.
  intros Hev. pose proof (evaluable_S0 i theta_basis Hev) as HS.
  destruct Hev as (HK & Hpos & Hb).
  pose proof (guard_T_floor (T i)) as HT.
  pose proof (guard_sigma_floor (sigma i)) as Hsg.
  pose proof (sqrt_guard_T_pos (T i)) as Hsq.
  assert (Hb' : IZR theta_basis <> 0) by (apply not_0_IZR, Hb).
  assert (Hden : guard_sigma (sigma i) * sqrt (guard_T (T i)) <> 0) by nra.
  assert (Hden2 : 2 * sqrt (guard_T (T i)) <> 0) by lra.
  assert (Hden3 : S0 i * guard_sigma (sigma i) * sqrt (guard_T (T i)) <> 0).
  { rewrite Rmult_assoc. apply Rmult_integral_contrapositive_currified; auto. }
  unfold price_and_greeks_bsm, closed_form.
  rewrite (py_div_ok _ _ HK). simpl.
  rewrite (math_log_ok _ Hpos). simpl.
  rewrite (math_sqrt_ok (guard_T (T i))) by lra. simpl.
  rewrite (py_div_ok _ _ Hden). simpl.
  rewrite !norm_cdf_eq. simpl. rewrite norm_pdf_eq. simpl.
  rewrite (py_div_ok _ _ Hden2), (py_div_ok _ _ Hden3).
  assert (H1e4 : 10000.0 <> 0) by lra.
  destruct (String.eqb (opt_type i) "call"); simpl;
    rewrite (py_div_ok _ _ Hb'); simpl;
    rewrite !(py_div_ok _ _ H1e4); simpl; reflexivity.
Qed.

Lemma eval_zero_strike (i : BSMInputs) (theta_basis : Z) :
  K i = 0 -> price_and_greeks_bsm i theta_basis = Raise ZeroDivisionError.
Proof.
  intros HK. unfold price_and_greeks_bsm. rewrite HK, py_div_zero. reflexivity.
Qed.

Lemma eval_log_domain (i : BSMInputs) (theta_basis : Z) :
  K i <> 0 -> S0 i / K i <= 0 ->
  price_and_greeks_bsm i theta_basis = Raise ValueError.
Proof.
  intros HK Hneg. unfold price_and_greeks_bsm.
  rewrite (py_div_ok _ _ HK). simpl.
  rewrite (math_log_domain _ Hneg). reflexivity.
Qed.

Lemma eval_zero_basis (i : BSMInputs) :
  K i <> 0 -> 0 < S0 i / K i ->
  price_and_greeks_bsm i 0 = Raise ZeroDivisionError.
Proof.
  intros HK Hpos.
  assert (HS : S0 i <> 0).
  { intros H0. rewrite H0 in Hpos. unfold Rdiv in Hpos.
    rewrite Rmult_0_l in Hpos. lra. }
  pose proof (guard_T_floor (T i)) as HT.
  pose proof (guard_sigma_floor (sigma i)) as Hsg.
  pose proof (sqrt_guard_T_pos (T i)) as Hsq.
  assert (Hden : guard_sigma (sigma i) * sqrt (guard_T (T i)) <> 0) by nra.
  assert (Hden2 : 2 * sqrt (guard_T (T i)) <> 0) by lra.
  assert (Hden3 : S0 i * guard_sigma (sigma i) * sqrt (guard_T (T i)) <> 0).
  { rewrite Rmult_assoc. apply Rmult_integral_contrapositive_currified; auto. }
  unfold price_and_greeks_bsm.
  rewrite (py_div_ok _ _ HK). simpl.
  rewrite (math_log_ok _ Hpos). simpl.
  rewrite (math_sqrt_ok (guard_T (T i))) by lra. simpl.
  rewrite (py_div_ok _ _ Hden). simpl.
  rewrite !norm_cdf_eq. simpl. rewrite norm_pdf_eq. simpl.
  rewrite (py_div_ok _ _ Hden2), (py_div_ok _ _ Hden3).
  destruct (String.eqb (opt_type i) "call"); simpl;
    rewrite py_div_zero; reflexivity.
Qed.

(** Every input falls in exactly one of the four outcomes. *)
Lemma eval_cases (i : BSMInputs) (theta_basis : Z) :
  (evaluable i theta_basis /\
   price_and_greeks_bsm i theta_basis = Ok (closed_form i theta_basis))
  \/ (~ evaluable i theta_basis /\
      exists e, price_and_greeks_bsm i theta_basis = Raise e).
Proof.
  destruct (Req_dec (K i) 0) as [HK | HK].
  { right. split; [intros (H & _); contradiction |].
    exists ZeroDivisionError. apply eval_zero_strike, HK. }
  destruct (Rlt_dec 0 (S0 i / K i)) as [Hpos | Hneg].
  2:{ right. split; [intros (_ & H & _); contradiction |].
      exists ValueError. apply eval_log_domain; [exact HK | lra]. }
  destruct (Z.eq_dec theta_basis 0) as [Hb | Hb].
  { right. split; [intros (_ & _ & H); contradiction |].
    exists ZeroDivisionError. subst theta_basis.
    apply eval_zero_basis; assumption. }
  left. assert (Hev : evaluable i theta_basis) by (repeat split; assumption).
  split; [exact Hev | apply eval_closed_form, Hev].
Qed.

Lemma eval_Ok_inv (i : BSMInputs) (theta_basis : Z) (out : BSMOutputs) :
  price_and_greeks_bsm i theta_basis = Ok out ->
  evaluable i theta_basis /\ out = closed_form i theta_basis.
Proof.
  intros Hout.
  destruct (eval_cases i theta_basis) as [[Hev Heq] | [_ [e He]]].
  - split; [exact Hev | congruence].
  - congruence.
Qed.

(** ** The normal distribution function *)

Lemma Ncdf_nonneg (x : R) : 0 <= Ncdf x.
Proof. unfold Ncdf. pose proof (erf_ge_m1 (x / sqrt 2)). lra. Qed.

Lemma Ncdf_le_1 (x : R) : Ncdf x <= 1.
Proof. unfold Ncdf. pose proof (erf_le_1 (x / sqrt 2)). lra. Qed.

Lemma erf_0 : erf 0 = 0.
Proof. unfold erf. rewrite gauss_int_0. ring. Qed.

Lemma Ncdf_0 : Ncdf 0 = 0.5.
Proof.
  unfold Ncdf. replace (0 / sqrt 2) with 0 by (unfold Rdiv; ring).
  rewrite erf_0. lra.
Qed.

Lemma Ncdf_opp (x : R) : Ncdf (- x) = 1 - Ncdf x.
Proof.
  unfold Ncdf.
  replace (- x / sqrt 2) with (- (x / sqrt 2)) by (unfold Rdiv; ring).
  rewrite erf_odd. lra.
Qed.

Lemma npdf_pos (x : R) : 0 < npdf x.
Proof.
  unfold npdf. apply Rdiv_lt_0_compat; [apply exp_pos |].
  apply sqrt_lt_R0. pose proof PI_RGT_0. lra.
Qed.

(** Derivatives of functions written as lambda terms. *)
Lemma dlim_comp (f g : R -> R) (x lf lg : R) :
  derivable_pt_lim f x lf -> derivable_pt_lim g (f x) lg ->
  derivable_pt_lim (fun y => g (f y)) x (lg * lf).
Proof. intros Hf Hg. exact (derivable_pt_lim_comp f g x lf lg Hf Hg). Qed.

Lemma dlim_mult (f g : R -> R) (x lf lg : R) :
  derivable_pt_lim f x lf -> derivable_pt_lim g x lg ->
  derivable_pt_lim (fun y => f y * g y) x (lf * g x + f x * lg).
Proof. intros Hf Hg. exact (derivable_pt_lim_mult f g x lf lg Hf Hg). Qed.

Lemma dlim_minus (f g : R -> R) (x lf lg : R) :
  derivable_pt_lim f x lf -> derivable_pt_lim g x lg ->
  derivable_pt_lim (fun y => f y - g y) x (lf - lg).
Proof. intros Hf Hg. exact (derivable_pt_lim_minus f g x lf lg Hf Hg). Qed.

Lemma dlim_plus (f g : R -> R) (x lf lg : R) :
  derivable_pt_lim f x lf -> derivable_pt_lim g x lg ->
  derivable_pt_lim (fun y => f y + g y) x (lf + lg).
Proof. intros Hf Hg. exact (derivable_pt_lim_plus f g x lf lg Hf Hg). Qed.

Lemma dlim_scal (f : R -> R) (a x l : R) :
  derivable_pt_lim f x l -> derivable_pt_lim (fun y => a * f y) x (a * l).
Proof. intros Hf. exact (derivable_pt_lim_scal f a x l Hf). Qed.

Lemma dlim_const (a x : R) : derivable_pt_lim (fun _ => a) x 0.
Proof. exact (derivable_pt_lim_const a x). Qed.

Lemma dlim_id (x : R) : derivable_pt_lim (fun y => y) x 1.
Proof. exact (derivable_pt_lim_id x). Qed.

Lemma sqrt_2PI : sqrt (2 * PI) = sqrt 2 * sqrt PI.
Proof. apply sqrt_mult; [lra | left; apply PI_RGT_0]. Qed.

(** The density is the derivative of the distribution function. *)
Lemma Ncdf_deriv (x : R) : derivable_pt_lim Ncdf x (npdf x).
Proof.
  pose proof sqrt_PI_pos as Hpi.
  assert (H2 : 0 < sqrt 2) by (apply sqrt_lt_R0; lra).
  pose proof (sqrt_sqrt 2) as Hs2.
  replace (npdf x)
    with (0.5 * (0 + 2 / sqrt PI * gauss (x * / sqrt 2) * (/ sqrt 2 * 1))).
  - unfold Ncdf, Rdiv at 1.
    apply dlim_scal.
    apply (dlim_plus (fun _ => 1) (fun y => erf (y * / sqrt 2))).
    + apply dlim_const.
    + apply (dlim_comp (fun y => y * / sqrt 2) erf).
      * replace (/ sqrt 2 * 1) with (1 * / sqrt 2 + x * 0) by ring.
        apply (dlim_mult (fun y => y) (fun _ => / sqrt 2));
          [apply dlim_id | apply dlim_const].
      * apply erf_deriv.
  - unfold npdf, gauss. rewrite sqrt_2PI.
    replace (- (x * / sqrt 2 * (x * / sqrt 2))) with (- 0.5 * x * x).
    + replace 0.5 with (/ 2) by lra. field. lra.
    + replace (x * / sqrt 2 * (x * / sqrt 2))
        with (x * x * / (sqrt 2 * sqrt 2)) by (field; lra).
      rewrite Hs2 by lra. lra.
Qed.

(** ** The call price as a function of spot and of strike *)

Section CallPrice.

Variables Tt sg rr qq : R.
Hypothesis HT : 0 < Tt.
Hypothesis Hsg : 0 < sg.

Lemma vol_pos : 0 < sg * sqrt Tt.
Proof. apply Rmult_lt_0_compat; [exact Hsg | apply sqrt_lt_R0, HT]. Qed.

(** [S0 exp(-qT) n(d1) = K exp(-rT) n(d2)]. *)
Lemma density_balance (x k : R) :
  0 < x -> 0 < k ->
  x * exp (- qq * Tt) * npdf (d1_of x k Tt sg rr qq)
  = k * exp (- rr * Tt) * npdf (d2_of x k Tt sg rr qq).
Proof.
  intros Hx Hk. pose proof vol_pos as Hv.
  pose proof (sqrt_lt_R0 Tt HT) as Hsq.
  unfold d2_of. set (d := d1_of x k Tt sg rr qq).
  set (s := sg * sqrt Tt) in *.
  assert (Hss : s * s = sg ^ 2 * Tt).
  { unfold s. replace (sg * sqrt Tt * (sg * sqrt Tt))
      with (sg ^ 2 * (sqrt Tt * sqrt Tt)) by ring.
    rewrite sqrt_sqrt by lra. reflexivity. }
  assert (Hd : d * s = ln (x / k) + (rr - qq + 0.5 * sg ^ 2) * Tt).
  { unfold d, d1_of. fold s. field. lra. }
  assert (Hxk : x = k * exp (ln (x / k))).
  { rewrite exp_ln; [field; lra | apply Rdiv_lt_0_compat; assumption]. }
  rewrite Hxk at 1. unfold npdf.
  assert (Hexp : exp (ln (x / k)) * exp (- qq * Tt) * exp (- 0.5 * d * d)
                 = exp (- rr * Tt) * exp (- 0.5 * (d - s) * (d - s))).
  { rewrite <- !exp_plus. f_equal. nra. }
  replace (k * exp (ln (x / k)) * exp (- qq * Tt)
           * (exp (- 0.5 * d * d) / sqrt (2 * PI)))
    with (k * (exp (ln (x / k)) * exp (- qq * Tt) * exp (- 0.5 * d * d))
          / sqrt (2 * PI)) by (unfold Rdiv; ring).
  rewrite Hexp. unfold Rdiv. ring.
Qed.

Lemma d1_deriv_spot (x k : R) :
  0 < x -> 0 < k ->
  derivable_pt_lim (fun y => d1_of y k Tt sg rr qq) x (/ (x * (sg * sqrt Tt))).
Proof.
  intros Hx Hk. pose proof vol_pos as Hv.
  pose proof (sqrt_lt_R0 Tt HT) as Hsq.
  unfold d1_of, Rdiv.
  replace (/ (x * (sg * sqrt Tt)))
    with ((/ (x * / k) * (1 * / k + x * 0) + 0) * / (sg * sqrt Tt) +
          (ln (x * / k) + (rr - qq + 0.5 * sg ^ 2) * Tt) * 0)
    by (field; lra).
  apply (dlim_mult
           (fun y => ln (y * / k) + (rr - qq + 0.5 * sg ^ 2) * Tt)
           (fun _ => / (sg * sqrt Tt))); [| apply dlim_const].
  apply (dlim_plus (fun y => ln (y * / k))
           (fun _ => (rr - qq + 0.5 * sg ^ 2) * Tt)); [| apply dlim_const].
  apply (dlim_comp (fun y => y * / k) ln).
  - apply (dlim_mult (fun y => y) (fun _ => / k));
      [apply dlim_id | apply dlim_const].
  - apply derivable_pt_lim_ln.
    apply Rmult_lt_0_compat; [exact Hx | apply Rinv_0_lt_compat, Hk].
Qed.

Lemma d1_deriv_strike (x k : R) :
  0 < x -> 0 < k ->
  derivable_pt_lim (fun y => d1_of x y Tt sg rr qq) k
    (- / (k * (sg * sqrt Tt))).
Proof.
  intros Hx Hk. pose proof vol_pos as Hv.
  pose proof (sqrt_lt_R0 Tt HT) as Hsq.
  unfold d1_of.
  replace (- / (k * (sg * sqrt Tt)))
    with ((/ (x / k) * ((0 * k - 1 * x) / Rsqr k) + 0) * / (sg * sqrt Tt) +
          (ln (x / k) + (rr - qq + 0.5 * sg ^ 2) * Tt) * 0)
    by (unfold Rsqr; field; lra).
  apply (dlim_mult
           (fun y => ln (x / y) + (rr - qq + 0.5 * sg ^ 2) * Tt)
           (fun _ => / (sg * sqrt Tt))); [| apply dlim_const].
  apply (dlim_plus (fun y => ln (x / y))
           (fun _ => (rr - qq + 0.5 * sg ^ 2) * Tt)); [| apply dlim_const].
  apply (dlim_comp (fun y => x / y) ln).
  - apply (derivable_pt_lim_div (fun _ => x) (fun y => y));
      [apply dlim_const | apply dlim_id | lra].
  - apply derivable_pt_lim_ln. apply Rdiv_lt_0_compat; assumption.
Qed.

(** Delta: the derivative of the call price in spot. *)
Lemma call_price_deriv_spot (x k : R) :
  0 < x -> 0 < k ->
  derivable_pt_lim (fun y => call_price y k Tt sg rr qq) x
    (exp (- qq * Tt) * Ncdf (d1_of x k Tt sg rr qq)).
Proof.
  intros Hx Hk. pose proof vol_pos as Hv.
  pose proof (sqrt_lt_R0 Tt HT) as Hsq.
  pose proof (density_balance x k Hx Hk) as Hbal.
  unfold d2_of in Hbal.
  set (d := d1_of x k Tt sg rr qq) in *.
  set (s := sg * sqrt Tt) in *.
  replace (exp (- qq * Tt) * Ncdf d)
    with (((1 * exp (- qq * Tt) + x * 0) * Ncdf d
           + x * exp (- qq * Tt) * (npdf d * / (x * s)))
          - k * exp (- rr * Tt) * (npdf (d - s) * (/ (x * s) - 0))).
  - unfold call_price, d2_of. fold s.
    apply (dlim_minus
             (fun y => y * exp (- qq * Tt) * Ncdf (d1_of y k Tt sg rr qq))
             (fun y => k * exp (- rr * Tt)
                       * Ncdf (d1_of y k Tt sg rr qq - s))).
    + apply (dlim_mult (fun y => y * exp (- qq * Tt))
               (fun y => Ncdf (d1_of y k Tt sg rr qq))).
      * apply (dlim_mult (fun y => y) (fun _ => exp (- qq * Tt)));
          [apply dlim_id | apply dlim_const].
      * apply (dlim_comp (fun y => d1_of y k Tt sg rr qq) Ncdf).
        -- apply d1_deriv_spot; assumption.
        -- apply Ncdf_deriv.
    + apply (dlim_scal (fun y => Ncdf (d1_of y k Tt sg rr qq - s))).
      apply (dlim_comp (fun y => d1_of y k Tt sg rr qq - s) Ncdf).
      * apply (dlim_minus (fun y => d1_of y k Tt sg rr qq) (fun _ => s));
          [apply d1_deriv_spot; assumption | apply dlim_const].
      * apply Ncdf_deriv.
  - replace (k * exp (- rr * Tt) * (npdf (d - s) * (/ (x * s) - 0)))
      with (k * exp (- rr * Tt) * npdf (d - s) * / (x * s)) by ring.
    rewrite <- Hbal. field. lra.
Qed.

(** The derivative of the call price in strike. *)
Lemma call_price_deriv_strike (x k : R) :
  0 < x -> 0 < k ->
  derivable_pt_lim (fun y => call_price x y Tt sg rr qq) k
    (- (exp (- rr * Tt) * Ncdf (d2_of x k Tt sg rr qq))).
Proof.
  intros Hx Hk. pose proof vol_pos as Hv.
  pose proof (sqrt_lt_R0 Tt HT) as Hsq.
  pose proof (density_balance x k Hx Hk) as Hbal.
  unfold d2_of in *.
  set (d := d1_of x k Tt sg rr qq) in *.
  set (s := sg * sqrt Tt) in *.
  replace (- (exp (- rr * Tt) * Ncdf (d - s)))
    with (x * exp (- qq * Tt) * (npdf d * - / (k * s))
          - ((1 * exp (- rr * Tt) + k * 0) * Ncdf (d - s)
             + k * exp (- rr * Tt) * (npdf (d - s) * (- / (k * s) - 0)))).
  - unfold call_price, d2_of. fold s.
    apply (dlim_minus
             (fun y => x * exp (- qq * Tt) * Ncdf (d1_of x y Tt sg rr qq))
             (fun y => y * exp (- rr * Tt)
                       * Ncdf (d1_of x y Tt sg rr qq - s))).
    + apply (dlim_scal (fun y => Ncdf (d1_of x y Tt sg rr qq))).
      apply (dlim_comp (fun y => d1_of x y Tt sg rr qq) Ncdf).
      * apply d1_deriv_strike; assumption.
      * apply Ncdf_deriv.
    + apply (dlim_mult (fun y => y * exp (- rr * Tt))
               (fun y => Ncdf (d1_of x y Tt sg rr qq - s))).
      * apply (dlim_mult (fun y => y) (fun _ => exp (- rr * Tt)));
          [apply dlim_id | apply dlim_const].
      * apply (dlim_comp (fun y => d1_of x y Tt sg rr qq - s) Ncdf).
        -- apply (dlim_minus (fun y => d1_of x y Tt sg rr qq) (fun _ => s));
             [apply d1_deriv_strike; assumption | apply dlim_const].
        -- apply Ncdf_deriv.
  - replace (k * exp (- rr * Tt) * (npdf (d - s) * (- / (k * s) - 0)))
      with (- (k * exp (- rr * Tt) * npdf (d - s)) * / (k * s)) by ring.
    rewrite <- Hbal. field. lra.
Qed.

Lemma call_price_incr_spot (x1 x2 k : R) :
  0 < x1 -> x1 <= x2 -> 0 < k ->
  call_price x1 k Tt sg rr qq <= call_price x2 k Tt sg rr qq.
Proof.
  intros H1 H12 Hk.
  apply (deriv_nonneg_incr (fun y => call_price y k Tt sg rr qq)
           (fun y => exp (- qq * Tt) * Ncdf (d1_of y k Tt sg rr qq))
           x1 x2 H12).
  - intros c Hc. apply call_price_deriv_spot; lra.
  - intros c _. apply Rmult_le_pos; [left; apply exp_pos | apply Ncdf_nonneg].
Qed.

Lemma call_price_decr_strike (x k1 k2 : R) :
  0 < x -> 0 < k1 -> k1 <= k2 ->
  call_price x k2 Tt sg rr qq <= call_price x k1 Tt sg rr qq.
Proof.
  intros Hx H1 H12.
  apply (deriv_nonpos_decr (fun y => call_price x y Tt sg rr qq)
           (fun y => - (exp (- rr * Tt) * Ncdf (d2_of x y Tt sg rr qq)))
           k1 k2 H12).
  - intros c Hc. apply call_price_deriv_strike; lra.
  - intros c _.
    pose proof (Rmult_le_pos _ _ (Rlt_le _ _ (exp_pos (- rr * Tt)))
                  (Ncdf_nonneg (d2_of x c Tt sg rr qq))).
    lra.
Qed.

End CallPrice.

(** ** Facts shared by the theorems on the engine *)

Lemma evaluable_with_T (i : BSMInputs) (b : Z) (t : R) :
  evaluable (with_T i t) b <-> evaluable i b.
Proof. unfold evaluable. simpl. tauto. Qed.

Lemma evaluable_with_sigma (i : BSMInputs) (b : Z) (s : R) :
  evaluable (with_sigma i s) b <-> evaluable i b.
Proof. unfold evaluable. simpl. tauto. Qed.

Lemma evaluable_with_opt_type (i : BSMInputs) (b : Z) (o : string) :
  evaluable (with_opt_type i o) b <-> evaluable i b.
Proof. unfold evaluable. simpl. tauto. Qed.

Lemma evaluable_pos (i : BSMInputs) (b : Z) :
  0 < S0 i -> 0 < K i -> b <> 0%Z -> evaluable i b.
Proof.
  intros HS HK Hb. repeat split; [lra | | exact Hb].
  apply Rdiv_lt_0_compat; assumption.
Qed.

Lemma evaluable_example : evaluable example_inputs 365.
Proof.
  apply evaluable_pos; unfold example_inputs; simpl; [lra | lra | discriminate].
Defined.

(** The outcome depends on the guarded [T] and [sigma] only. *)
Lemma eval_guard_ext (i j : BSMInputs) (b : Z) :
  S0 i = S0 j -> K i = K j -> r i = r j -> q i = q j ->
  opt_type i = opt_type j ->
  guard_T (T i) = guard_T (T j) ->
  guard_sigma (sigma i) = guard_sigma (sigma j) ->
  price_and_greeks_bsm i b = price_and_greeks_bsm j b.
Proof.
  intros HS HK Hr Hq Ho HT Hs. unfold price_and_greeks_bsm.
  rewrite HS, HK, Hr, Hq, Ho, HT, Hs. reflexivity.
Qed.

(** The outcome depends on the option type only through [== "call"]. *)
Lemma eval_opt_type_ext (i : BSMInputs) (b : Z) (o : string) :
  String.eqb (opt_type i) "call" = String.eqb o "call" ->
  price_and_greeks_bsm i b = price_and_greeks_bsm (with_opt_type i o) b.
Proof.
  intros Ho. unfold price_and_greeks_bsm. simpl. rewrite Ho. reflexivity.
Qed.

Lemma guard_T_idem (t : R) : guard_T (guard_T t) = guard_T t.
Proof. apply guard_T_above, guard_T_floor. Qed.

Lemma guard_sigma_idem (s : R) : guard_sigma (guard_sigma s) = guard_sigma s.
Proof. apply guard_sigma_above, guard_sigma_floor. Qed.

Lemma closed_form_call_price (i : BSMInputs) (b : Z) :
  opt_type i = "call"%string ->
  price (closed_form i b)
  = call_price (S0 i) (K i) (guard_T (T i)) (guard_sigma (sigma i))
      (r i) (q i).
Proof. intros Ho. unfold closed_form. rewrite Ho. reflexivity. Qed.

Lemma closed_form_put_price (i : BSMInputs) (b : Z) :
  String.eqb (opt_type i) "call" = false ->
  price (closed_form i b)
  = put_price (S0 i) (K i) (guard_T (T i)) (guard_sigma (sigma i))
      (r i) (q i).
Proof. intros Ho. unfold closed_form. rewrite Ho. reflexivity. Qed.

(** ** The claims *)

(** C1.  For an input whose [opt_type] is exactly ["call"], every record the
    engine returns carries the call formulas in [price], [delta],
    [theta_per_year], [rho_per_1] and [phi_per_1], with [T] and [sigma] the
    guarded values and [d1], [d2] as written out below; and the engine does
    return a record whenever no operation raises. *)
Theorem call_branch_formulas (i : BSMInputs) (theta_basis : Z) :
  opt_type i = "call"%string ->
  let T' := guard_T (T i) in
  let sigma' := guard_sigma (sigma i) in
  let d1 := (ln (S0 i / K i) + (r i - q i + 0.5 * sigma' ^ 2) * T')
            / (sigma' * sqrt T') in
  let d2 := d1 - sigma' * sqrt T' in
  (evaluable i theta_basis ->
   exists out, price_and_greeks_bsm i theta_basis = Ok out)
  /\
  (forall out, price_and_greeks_bsm i theta_basis = Ok out ->
     price out
       = S0 i * exp (- q i * T') * Ncdf d1 - K i * exp (- r i * T') * Ncdf d2
     /\ delta out = exp (- q i * T') * Ncdf d1
     /\ theta_per_year out
        = - S0 i * exp (- q i * T') * npdf d1 * sigma' / (2 * sqrt T')
          + q i * S0 i * exp (- q i * T') * Ncdf d1
          - r i * K i * exp (- r i * T') * Ncdf d2
     /\ rho_per_1 out = K i * T' * exp (- r i * T') * Ncdf d2
     /\ phi_per_1 out = - T' * S0 i * exp (- q i * T') * Ncdf d1).
Proof.
  intros Ho T' sigma' d1 d2. split.
  - intros Hev. eexists. apply eval_closed_form, Hev.
  - intros out Hout.
    destruct (eval_Ok_inv _ _ _ Hout) as [_ ->].
    unfold closed_form. rewrite Ho. simpl.
    repeat split; reflexivity.
Qed.

Lemma call_branch_formulas_witness :
  exists out,
    price_and_greeks_bsm example_inputs 365 = Ok out
    /\ delta out
       = exp (- q example_inputs * guard_T (T example_inputs))
         * Ncdf (d1_of (S0 example_inputs) (K example_inputs)
                   (guard_T (T example_inputs))
                   (guard_sigma (sigma example_inputs))
                   (r example_inputs) (q example_inputs)).
Proof.
  destruct (call_branch_formulas example_inputs 365 eq_refl) as [Hex Hall].
  destruct (Hex evaluable_example) as [out Hout].
  exists out. split; [exact Hout |].
  destruct (Hall out Hout) as (_ & Hd & _). exact Hd.
Defined.

(** C3, as the code has it.  The engine catches nothing, so Python's
    exceptions reach the caller: a zero strike raises [ZeroDivisionError] in
    [S0 / K]; a non-positive quotient [S0 / K] raises [ValueError] in
    [math.log]; and with [theta_basis = 0] no record is ever returned, the
    call raises. *)
Theorem engine_outcomes (i : BSMInputs) (theta_basis : Z) :
  (K i = 0 ->
   price_and_greeks_bsm i theta_basis = Raise ZeroDivisionError)
  /\ (K i <> 0 -> S0 i / K i <= 0 ->
      price_and_greeks_bsm i theta_basis = Raise ValueError)
  /\ (theta_basis = 0%Z ->
      exists e, price_and_greeks_bsm i theta_basis = Raise e).
Proof.
  repeat split.
  - apply eval_zero_strike.
  - apply eval_log_domain.
  - intros ->.
    destruct (eval_cases i 0) as [[(_ & _ & Hb) _] | [_ He]];
      [contradiction | exact He].
Qed.

Lemma engine_outcomes_witness :
  price_and_greeks_bsm (with_K example_inputs 0) 365
  = Raise ZeroDivisionError.
Proof.
  destruct (engine_outcomes (with_K example_inputs 0) 365) as (Hzero & _).
  apply Hzero. reflexivity.
Defined.

(** C3, as stated, fails: with the reference inputs and [theta_basis = 0]
    the engine raises [ZeroDivisionError] instead of returning a record with
    an infinite [theta_per_day], and with a zero spot it raises
    [ValueError]. *)
Lemma engine_raises :
  price_and_greeks_bsm example_inputs 0 = Raise ZeroDivisionError
  /\ price_and_greeks_bsm (with_S0 example_inputs 0) 365 = Raise ValueError.
Proof.
  split.
  - apply eval_zero_basis; simpl; lra.
  - apply eval_log_domain; simpl; lra.
Qed.

(** C4.  Below the floor the guards are deterministic and idempotent: an
    evaluation with [T < 1e-6] (in particular [T = 0]) has exactly the
    outcome of the evaluation with [T = 1e-6], hence the same record field by
    field, and it returns whenever the other parameters let the engine
    return; likewise [sigma < 1e-8] is evaluated as [sigma = 1e-8]. *)
Theorem guards_below_floor (i : BSMInputs) (theta_basis : Z) :
  (forall t, t < 1e-6 ->
     guard_T t = 1e-6
     /\ price_and_greeks_bsm (with_T i t) theta_basis
        = price_and_greeks_bsm (with_T i 1e-6) theta_basis
     /\ (evaluable i theta_basis ->
         exists out,
           price_and_greeks_bsm (with_T i t) theta_basis = Ok out
           /\ price_and_greeks_bsm (with_T i 1e-6) theta_basis = Ok out))
  /\ (forall s, s < 1e-8 ->
        guard_sigma s = 1e-8
        /\ price_and_greeks_bsm (with_sigma i s) theta_basis
           = price_and_greeks_bsm (with_sigma i 1e-8) theta_basis
        /\ (evaluable i theta_basis ->
            exists out,
              price_and_greeks_bsm (with_sigma i s) theta_basis = Ok out
              /\ price_and_greeks_bsm (with_sigma i 1e-8) theta_basis
                 = Ok out))
  /\ (forall t, guard_T (guard_T t) = guard_T t)
  /\ (forall s, guard_sigma (guard_sigma s) = guard_sigma s).
Proof.
  split; [| split; [| split]].
  - intros t Ht.
    assert (Heq : price_and_greeks_bsm (with_T i t) theta_basis
                  = price_and_greeks_bsm (with_T i 1e-6) theta_basis).
    { apply eval_guard_ext; try reflexivity. simpl.
      rewrite (guard_T_below t Ht), guard_T_above; [reflexivity | lra]. }
    split; [apply guard_T_below, Ht | split; [exact Heq |]].
    intros Hev. exists (closed_form (with_T i t) theta_basis).
    split; [| rewrite <- Heq]; apply eval_closed_form, evaluable_with_T, Hev.
  - intros s Hs.
    assert (Heq : price_and_greeks_bsm (with_sigma i s) theta_basis
                  = price_and_greeks_bsm (with_sigma i 1e-8) theta_basis).
    { apply eval_guard_ext; try reflexivity. simpl.
      rewrite (guard_sigma_below s Hs), guard_sigma_above;
        [reflexivity | lra]. }
    split; [apply guard_sigma_below, Hs | split; [exact Heq |]].
    intros Hev. exists (closed_form (with_sigma i s) theta_basis).
    split; [| rewrite <- Heq];
      apply eval_closed_form, evaluable_with_sigma, Hev.
  - apply guard_T_idem.
  - apply guard_sigma_idem.
Qed.

Lemma guards_below_floor_witness :
  exists out,
    price_and_greeks_bsm (with_T example_inputs 0) 365 = Ok out
    /\ price_and_greeks_bsm (with_T example_inputs 1e-6) 365 = Ok out.
Proof.
  destruct (guards_below_floor example_inputs 365) as (HT & _).
  assert (H0 : 0 < 1e-6) by lra.
  destruct (HT 0 H0) as (_ & _ & Hex).
  exact (Hex evaluable_example).
Defined.

(** C5.  Every record the engine returns satisfies the unit conversions among
    its own fields: [vega_per_volpt = vega_per_vol * 0.01],
    [rho_per_bp = rho_per_1 / 10000], [phi_per_bp = phi_per_1 / 10000] and
    [theta_per_day = theta_per_year / theta_basis], the basis being non-zero
    whenever a record is returned. *)
Theorem unit_conversions (i : BSMInputs) (theta_basis : Z) :
  (evaluable i theta_basis ->
   exists out, price_and_greeks_bsm i theta_basis = Ok out)
  /\
  (forall out, price_and_greeks_bsm i theta_basis = Ok out ->
     theta_basis <> 0%Z
     /\ vega_per_volpt out = vega_per_vol out * 0.01
     /\ rho_per_bp out = rho_per_1 out / 10000
     /\ phi_per_bp out = phi_per_1 out / 10000
     /\ theta_per_day out = theta_per_year out / IZR theta_basis).
Proof.
  split.
  - intros Hev. eexists. apply eval_closed_form, Hev.
  - intros out Hout.
    destruct (eval_Ok_inv _ _ _ Hout) as [(_ & _ & Hb) ->].
    unfold closed_form. simpl.
    replace 10000.0 with 10000 by lra.
    repeat split; try reflexivity. exact Hb.
Qed.

Lemma unit_conversions_witness :
  exists out,
    price_and_greeks_bsm example_inputs 365 = Ok out
    /\ theta_per_day out = theta_per_year out / IZR 365.
Proof.
  destruct (unit_conversions example_inputs 365) as (Hex & Hall).
  destruct (Hex evaluable_example) as (out & Hout).
  exists out. split; [exact Hout |].
  destruct (Hall out Hout) as (_ & _ & _ & _ & Hday). exact Hday.
Defined.

(** C6.  For an input whose [opt_type] is anything but exactly ["call"]
    (["put"], ["Call"], a typo), every record the engine returns carries the
    put formulas in the branch-dependent fields; nothing is validated or
    signalled: the outcome is the very outcome of the same input with
    [opt_type] ["put"], and a record is returned whenever no operation
    raises. *)
Theorem non_call_is_put (i : BSMInputs) (theta_basis : Z) :
  opt_type i <> "call"%string ->
  let T' := guard_T (T i) in
  let sigma' := guard_sigma (sigma i) in
  let d1 := (ln (S0 i / K i) + (r i - q i + 0.5 * sigma' ^ 2) * T')
            / (sigma' * sqrt T') in
  let d2 := d1 - sigma' * sqrt T' in
  price_and_greeks_bsm i theta_basis
  = price_and_greeks_bsm (with_opt_type i "put") theta_basis
  /\
  (evaluable i theta_basis ->
   exists out, price_and_greeks_bsm i theta_basis = Ok out)
  /\
  (forall out, price_and_greeks_bsm i theta_basis = Ok out ->
     price out
       = K i * exp (- r i * T') * Ncdf (- d2)
         - S0 i * exp (- q i * T') * Ncdf (- d1)
     /\ delta out = exp (- q i * T') * Ncdf d1 - exp (- q i * T')
     /\ theta_per_year out
        = - S0 i * exp (- q i * T') * npdf d1 * sigma' / (2 * sqrt T')
          - q i * S0 i * exp (- q i * T') * Ncdf (- d1)
          + r i * K i * exp (- r i * T') * Ncdf (- d2)
     /\ rho_per_1 out = - K i * T' * exp (- r i * T') * Ncdf (- d2)
     /\ phi_per_1 out = T' * S0 i * exp (- q i * T') * Ncdf (- d1)).
Proof.
  intros Ho T' sigma' d1 d2.
  apply String.eqb_neq in Ho.
  split; [| split].
  - apply eval_opt_type_ext. rewrite Ho. reflexivity.
  - intros Hev. eexists. apply eval_closed_form, Hev.
  - intros out Hout.
    destruct (eval_Ok_inv _ _ _ Hout) as [_ ->].
    unfold closed_form. rewrite Ho. simpl.
    repeat split; reflexivity.
Qed.

Lemma non_call_is_put_witness :
  price_and_greeks_bsm (with_opt_type example_inputs "Call") 365
  = price_and_greeks_bsm (with_opt_type example_inputs "put") 365.
Proof.
  assert (Hne : opt_type (with_opt_type example_inputs "Call")
                <> "call"%string) by (simpl; discriminate).
  destruct (non_call_is_put (with_opt_type example_inputs "Call") 365 Hne)
    as (Heq & _).
  exact Heq.
Defined.

(** C7.  Delta bounds: for [S0 > 0] and [K > 0], the delta returned for
    [opt_type] ["call"] lies in [[0, exp(-q T)]] and the delta returned for
    ["put"] lies in [[-exp(-q T), 0]], with [T] the guarded value; with a
    non-zero basis both evaluations return. *)
Theorem delta_bounds (i : BSMInputs) (theta_basis : Z) :
  0 < S0 i -> 0 < K i ->
  let T' := guard_T (T i) in
  (theta_basis <> 0%Z ->
   exists c p,
     price_and_greeks_bsm (with_opt_type i "call") theta_basis = Ok c
     /\ price_and_greeks_bsm (with_opt_type i "put") theta_basis = Ok p)
  /\
  (forall c,
     price_and_greeks_bsm (with_opt_type i "call") theta_basis = Ok c ->
     0 <= delta c <= exp (- q i * T'))
  /\
  (forall p,
     price_and_greeks_bsm (with_opt_type i "put") theta_basis = Ok p ->
     - exp (- q i * T') <= delta p <= 0).
Proof.
  intros HS HK T'. split; [| split].
  - intros Hb. do 2 eexists. split; apply eval_closed_form;
      apply evaluable_with_opt_type, evaluable_pos; assumption.
  - intros c Hc.
    destruct (eval_Ok_inv _ _ _ Hc) as [_ ->].
    unfold closed_form. simpl. fold T'.
    match goal with |- 0 <= _ * Ncdf ?d <= _ =>
      pose proof (Ncdf_nonneg d); pose proof (Ncdf_le_1 d) end.
    pose proof (exp_pos (- q i * T')). nra.
  - intros p Hp.
    destruct (eval_Ok_inv _ _ _ Hp) as [_ ->].
    unfold closed_form. simpl. fold T'.
    match goal with |- _ <= _ * Ncdf ?d - _ <= _ =>
      pose proof (Ncdf_nonneg d); pose proof (Ncdf_le_1 d) end.
    pose proof (exp_pos (- q i * T')). nra.
Qed.

Lemma delta_bounds_witness :
  exists c,
    price_and_greeks_bsm (with_opt_type example_inputs "call") 365 = Ok c
    /\ 0 <= delta c
       <= exp (- q example_inputs * guard_T (T example_inputs)).
Proof.
  assert (HS : 0 < S0 example_inputs) by (simpl; lra).
  assert (HK : 0 < K example_inputs) by (simpl; lra).
  destruct (delta_bounds example_inputs 365 HS HK) as (Hex & Hcall & _).
  destruct Hex as (c & p & Hc & Hp); [discriminate |].
  exists c. split; [exact Hc | exact (Hcall c Hc)].
Defined.

(** C9.  [norm_cdf] never fails: for every real [x] it returns
    [0.5 * (1 + erf (x / sqrt 2))], and that value lies in [[0, 1]]. *)
Theorem norm_cdf_total (x : R) :
  norm_cdf x = Ok (0.5 * (1 + erf (x / sqrt 2)))
  /\ 0 <= 0.5 * (1 + erf (x / sqrt 2)) <= 1.
Proof.
  split.
  - apply norm_cdf_eq.
  - pose proof (Ncdf_nonneg x). pose proof (Ncdf_le_1 x).
    unfold Ncdf in *. lra.
Qed.

(** C10, as the code has it.  Across the two branches, for the same inputs:
    the put delta is the call delta minus [exp(-q T)] ([T] guarded), as
    line 66 computes it, and [gamma] and [vega_per_vol], computed outside
    the branch, coincide; both evaluations return whenever no operation
    raises. *)
Theorem cross_branch (i : BSMInputs) (theta_basis : Z) :
  let T' := guard_T (T i) in
  (evaluable i theta_basis ->
   exists c p,
     price_and_greeks_bsm (with_opt_type i "call") theta_basis = Ok c
     /\ price_and_greeks_bsm (with_opt_type i "put") theta_basis = Ok p)
  /\
  (forall c p,
     price_and_greeks_bsm (with_opt_type i "call") theta_basis = Ok c ->
     price_and_greeks_bsm (with_opt_type i "put") theta_basis = Ok p ->
     delta p = delta c - exp (- q i * T')
     /\ gamma c = gamma p
     /\ vega_per_vol c = vega_per_vol p).
Proof.
  intros T'. split.
  - intros Hev. do 2 eexists. split; apply eval_closed_form;
      apply evaluable_with_opt_type, Hev.
  - intros c p Hc Hp.
    destruct (eval_Ok_inv _ _ _ Hc) as [_ ->].
    destruct (eval_Ok_inv _ _ _ Hp) as [_ ->].
    unfold closed_form. simpl. fold T'.
    repeat split; reflexivity.
Qed.

Lemma cross_branch_witness :
  exists c p,
    price_and_greeks_bsm (with_opt_type example_inputs "call") 365 = Ok c
    /\ price_and_greeks_bsm (with_opt_type example_inputs "put") 365 = Ok p
    /\ delta p
       = delta c - exp (- q example_inputs * guard_T (T example_inputs))
    /\ gamma c = gamma p.
Proof.
  destruct (cross_branch example_inputs 365) as (Hex & Hall).
  destruct (Hex evaluable_example) as (c & p & Hc & Hp).
  destruct (Hall c p Hc Hp) as (Hd & Hg & _).
  exists c, p. repeat split; assumption.
Defined.

(** C10, as stated, fails in the program's arithmetic.  At [S0 = K = 100],
    [T = 0.25], [sigma = 0.1], [r = 0], [q = 0.01] the put delta of line 66
    is the call delta of line 60 minus [exp_qT], bit for bit, but the call
    delta minus the put delta is [0.9975031223974602], one unit in the last
    place above [exp_qT = 0.9975031223974601]. *)
Lemma delta_gap_rounds :
  (delta_put_b64 ref_exp_qT ref_N_d1
   =? delta_call_b64 ref_exp_qT ref_N_d1 - ref_exp_qT)%float = true
  /\ (delta_call_b64 ref_exp_qT ref_N_d1 - delta_put_b64 ref_exp_qT ref_N_d1
      =? ref_exp_qT)%float = false
  /\ (delta_call_b64 ref_exp_qT ref_N_d1 - delta_put_b64 ref_exp_qT ref_N_d1
      =? 0x1.feb8bab0b5bf8p-1)%float = true.
Proof. repeat split; vm_compute; reflexivity. Qed.

(** * Further properties *)

(** ** Differentiation of composed expressions *)

Lemma dlim_val (f : R -> R) (x l l' : R) :
  derivable_pt_lim f x l -> l = l' -> derivable_pt_lim f x l'.
Proof. intros H <-. exact H. Qed.

Lemma dlim_opp (f : R -> R) (x l : R) :
  derivable_pt_lim f x l -> derivable_pt_lim (fun y => - f y) x (- l).
Proof. intros Hf. exact (derivable_pt_lim_opp f x l Hf). Qed.

Lemma dlim_exp (f : R -> R) (x l : R) :
  derivable_pt_lim f x l ->
  derivable_pt_lim (fun y => exp (f y)) x (exp (f x) * l).
Proof.
  intros Hf. apply (dlim_comp f exp); [exact Hf | apply derivable_pt_lim_exp].
Qed.

Lemma dlim_ln (f : R -> R) (x l : R) :
  0 < f x -> derivable_pt_lim f x l ->
  derivable_pt_lim (fun y => ln (f y)) x (/ f x * l).
Proof.
  intros Hpos Hf.
  apply (dlim_comp f ln); [exact Hf | apply derivable_pt_lim_ln, Hpos].
Qed.

Lemma dlim_sqrt (f : R -> R) (x l : R) :
  0 < f x -> derivable_pt_lim f x l ->
  derivable_pt_lim (fun y => sqrt (f y)) x (/ (2 * sqrt (f x)) * l).
Proof.
  intros Hpos Hf.
  apply (dlim_comp f sqrt); [exact Hf | apply derivable_pt_lim_sqrt, Hpos].
Qed.

Lemma dlim_Ncdf (f : R -> R) (x l : R) :
  derivable_pt_lim f x l ->
  derivable_pt_lim (fun y => Ncdf (f y)) x (npdf (f x) * l).
Proof.
  intros Hf. apply (dlim_comp f Ncdf); [exact Hf | apply Ncdf_deriv].
Qed.

Lemma dlim_div (f g : R -> R) (x lf lg : R) :
  g x <> 0 ->
  derivable_pt_lim f x lf -> derivable_pt_lim g x lg ->
  derivable_pt_lim (fun y => f y / g y) x
    ((lf * g x - lg * f x) / Rsqr (g x)).
Proof.
  intros Hg Hf Hgd. exact (derivable_pt_lim_div f g x lf lg Hf Hgd Hg).
Qed.

Lemma dlim_sq (f : R -> R) (x l : R) :
  derivable_pt_lim f x l ->
  derivable_pt_lim (fun y => f y ^ 2) x (2 * f x * l).
Proof.
  intros Hf.
  apply (derivable_pt_lim_ext (fun y => f y * f y)); [intros z; ring |].
  apply (dlim_val _ _ _ _ (dlim_mult f f x l l Hf Hf)). ring.
Qed.

(** The shape of both prices: [A N(D) - B N(D - s)] with the densities in
    balance, [A n(D) = B n(D - s)], at the point of differentiation. *)
Lemma balanced_form_deriv (A B D s : R -> R) (x a' b' d' s' : R) :
  derivable_pt_lim A x a' -> derivable_pt_lim B x b' ->
  derivable_pt_lim D x d' -> derivable_pt_lim s x s' ->
  A x * npdf (D x) = B x * npdf (D x - s x) ->
  derivable_pt_lim (fun y => A y * Ncdf (D y) - B y * Ncdf (D y - s y)) x
    (a' * Ncdf (D x) - b' * Ncdf (D x - s x) + A x * npdf (D x) * s').
Proof.
  intros HA HB HD Hs Hbal.
  apply (dlim_val _ _
           ((a' * Ncdf (D x) + A x * (npdf (D x) * d'))
            - (b' * Ncdf (D x - s x)
               + B x * (npdf (D x - s x) * (d' - s'))))).
  - apply (dlim_minus (fun y => A y * Ncdf (D y))
             (fun y => B y * Ncdf (D y - s y))).
    + apply (dlim_mult A (fun y => Ncdf (D y))); [exact HA |].
      apply dlim_Ncdf, HD.
    + apply (dlim_mult B (fun y => Ncdf (D y - s y))); [exact HB |].
      apply (dlim_Ncdf (fun y => D y - s y)).
      apply dlim_minus; assumption.
  - replace (B x * (npdf (D x - s x) * (d' - s')))
      with (B x * npdf (D x - s x) * (d' - s')) by ring.
    rewrite <- Hbal. ring.
Qed.

Ltac dlim_step :=
  first [ apply dlim_const | apply dlim_id
        | apply dlim_plus | apply dlim_minus | apply dlim_div
        | apply dlim_mult | apply dlim_opp | apply dlim_exp | apply dlim_Ncdf
        | apply dlim_sq | apply dlim_sqrt | apply dlim_ln ].

Ltac dlim_auto := repeat dlim_step.

(** [d1] is differentiable in each parameter; its derivative cancels from
    every Greek, so only existence is recorded. *)
Lemma d1_derivable_rate (S0 K T sigma r q : R) :
  0 < T -> 0 < sigma ->
  exists l, derivable_pt_lim (fun y => d1_of S0 K T sigma y q) r l.
Proof.
  intros HT Hs. pose proof (sqrt_lt_R0 T HT) as Hsq.
  eexists. unfold d1_of. dlim_auto. nra.
Qed.

Lemma d1_derivable_yield (S0 K T sigma r q : R) :
  0 < T -> 0 < sigma ->
  exists l, derivable_pt_lim (fun y => d1_of S0 K T sigma r y) q l.
Proof.
  intros HT Hs. pose proof (sqrt_lt_R0 T HT) as Hsq.
  eexists. unfold d1_of. dlim_auto. nra.
Qed.

Lemma d1_derivable_vol (S0 K T sigma r q : R) :
  0 < T -> 0 < sigma ->
  exists l, derivable_pt_lim (fun y => d1_of S0 K T y r q) sigma l.
Proof.
  intros HT Hs. pose proof (sqrt_lt_R0 T HT) as Hsq.
  eexists. unfold d1_of. dlim_auto. nra.
Qed.

Lemma d1_derivable_expiry (S0 K T sigma r q : R) :
  0 < T -> 0 < sigma ->
  exists l, derivable_pt_lim (fun y => d1_of S0 K y sigma r q) T l.
Proof.
  intros HT Hs. pose proof (sqrt_lt_R0 T HT) as Hsq.
  eexists. unfold d1_of. dlim_auto; [nra | exact HT].
Qed.

(** ** The call price differentiated in rate, yield, volatility, expiry *)

Lemma call_price_deriv_rate (S0 K T sigma r q : R) :
  0 < S0 -> 0 < K -> 0 < T -> 0 < sigma ->
  derivable_pt_lim (fun y => call_price S0 K T sigma y q) r
    (K * T * exp (- r * T) * Ncdf (d2_of S0 K T sigma r q)).
Proof.
  intros HS HK HT Hs.
  destruct (d1_derivable_rate S0 K T sigma r q HT Hs) as [d' Hd].
  pose proof (density_balance T sigma r q HT Hs S0 K HS HK) as Hbal.
  unfold call_price, d2_of in *.
  eapply dlim_val.
  - eapply (balanced_form_deriv
             (fun _ => S0 * exp (- q * T)) (fun y => K * exp (- y * T))
             (fun y => d1_of S0 K T sigma y q) (fun _ => sigma * sqrt T));
      [dlim_auto | dlim_auto | exact Hd | dlim_auto | exact Hbal].
  - cbv beta. ring.
Qed.

Lemma call_price_deriv_yield (S0 K T sigma r q : R) :
  0 < S0 -> 0 < K -> 0 < T -> 0 < sigma ->
  derivable_pt_lim (fun y => call_price S0 K T sigma r y) q
    (- T * S0 * exp (- q * T) * Ncdf (d1_of S0 K T sigma r q)).
Proof.
  intros HS HK HT Hs.
  destruct (d1_derivable_yield S0 K T sigma r q HT Hs) as [d' Hd].
  pose proof (density_balance T sigma r q HT Hs S0 K HS HK) as Hbal.
  unfold call_price, d2_of in *.
  eapply dlim_val.
  - eapply (balanced_form_deriv
             (fun y => S0 * exp (- y * T)) (fun _ => K * exp (- r * T))
             (fun y => d1_of S0 K T sigma r y) (fun _ => sigma * sqrt T));
      [dlim_auto | dlim_auto | exact Hd | dlim_auto | exact Hbal].
  - cbv beta. ring.
Qed.

Lemma call_price_deriv_vol (S0 K T sigma r q : R) :
  0 < S0 -> 0 < K -> 0 < T -> 0 < sigma ->
  derivable_pt_lim (fun y => call_price S0 K T y r q) sigma
    (S0 * exp (- q * T) * npdf (d1_of S0 K T sigma r q) * sqrt T).
Proof.
  intros HS HK HT Hs.
  destruct (d1_derivable_vol S0 K T sigma r q HT Hs) as [d' Hd].
  pose proof (density_balance T sigma r q HT Hs S0 K HS HK) as Hbal.
  unfold call_price, d2_of in *.
  eapply dlim_val.
  - eapply (balanced_form_deriv
             (fun _ => S0 * exp (- q * T)) (fun _ => K * exp (- r * T))
             (fun y => d1_of S0 K T y r q) (fun y => y * sqrt T));
      [dlim_auto | dlim_auto | exact Hd | dlim_auto | exact Hbal].
  - cbv beta. ring.
Qed.

(** In time to expiry the slope is the opposite of the annual theta. *)
Lemma call_price_deriv_expiry (S0 K T sigma r q : R) :
  0 < S0 -> 0 < K -> 0 < T -> 0 < sigma ->
  derivable_pt_lim (fun y => call_price S0 K y sigma r q) T
    (- (- S0 * exp (- q * T) * npdf (d1_of S0 K T sigma r q) * sigma
          / (2 * sqrt T)
        + q * S0 * exp (- q * T) * Ncdf (d1_of S0 K T sigma r q)
        - r * K * exp (- r * T) * Ncdf (d2_of S0 K T sigma r q))).
Proof.
  intros HS HK HT Hs. pose proof (sqrt_lt_R0 T HT) as Hsq.
  destruct (d1_derivable_expiry S0 K T sigma r q HT Hs) as [d' Hd].
  pose proof (density_balance T sigma r q HT Hs S0 K HS HK) as Hbal.
  unfold call_price, d2_of in *.
  eapply dlim_val.
  - eapply (balanced_form_deriv
             (fun y => S0 * exp (- q * y)) (fun y => K * exp (- r * y))
             (fun y => d1_of S0 K y sigma r q) (fun y => sigma * sqrt y));
      [dlim_auto | dlim_auto | exact Hd | dlim_auto; exact HT | exact Hbal].
  - cbv beta. field. lra.
Qed.

(** ** The put price through parity *)

Lemma put_price_parity (S0 K T sigma r q : R) :
  put_price S0 K T sigma r q
  = call_price S0 K T sigma r q - S0 * exp (- q * T) + K * exp (- r * T).
Proof. unfold put_price, call_price. rewrite !Ncdf_opp. ring. Qed.

Lemma put_price_deriv_spot (S0 K T sigma r q : R) :
  0 < S0 -> 0 < K -> 0 < T -> 0 < sigma ->
  derivable_pt_lim (fun y => put_price y K T sigma r q) S0
    (exp (- q * T) * Ncdf (d1_of S0 K T sigma r q) - exp (- q * T)).
Proof.
  intros HS HK HT Hs.
  apply (derivable_pt_lim_ext
           (fun y => call_price y K T sigma r q - y * exp (- q * T)
                     + K * exp (- r * T)));
    [intros z; symmetry; apply put_price_parity |].
  eapply dlim_val.
  - apply dlim_plus; [apply dlim_minus |];
      [apply (call_price_deriv_spot T sigma r q HT Hs S0 K HS HK)
      | dlim_auto | dlim_auto].
  - cbv beta. ring.
Qed.

Lemma put_price_deriv_strike (S0 K T sigma r q : R) :
  0 < S0 -> 0 < K -> 0 < T -> 0 < sigma ->
  derivable_pt_lim (fun y => put_price S0 y T sigma r q) K
    (exp (- r * T) * Ncdf (- d2_of S0 K T sigma r q)).
Proof.
  intros HS HK HT Hs.
  apply (derivable_pt_lim_ext
           (fun y => call_price S0 y T sigma r q - S0 * exp (- q * T)
                     + y * exp (- r * T)));
    [intros z; symmetry; apply put_price_parity |].
  eapply dlim_val.
  - apply dlim_plus; [apply dlim_minus |];
      [apply (call_price_deriv_strike T sigma r q HT Hs S0 K HS HK)
      | dlim_auto | dlim_auto].
  - cbv beta. rewrite Ncdf_opp. ring.
Qed.

Lemma put_price_deriv_rate (S0 K T sigma r q : R) :
  0 < S0 -> 0 < K -> 0 < T -> 0 < sigma ->
  derivable_pt_lim (fun y => put_price S0 K T sigma y q) r
    (- K * T * exp (- r * T) * Ncdf (- d2_of S0 K T sigma r q)).
Proof.
  intros HS HK HT Hs.
  apply (derivable_pt_lim_ext
           (fun y => call_price S0 K T sigma y q - S0 * exp (- q * T)
                     + K * exp (- y * T)));
    [intros z; symmetry; apply put_price_parity |].
  eapply dlim_val.
  - apply dlim_plus; [apply dlim_minus |];
      [apply call_price_deriv_rate; assumption | dlim_auto | dlim_auto].
  - cbv beta. rewrite Ncdf_opp. ring.
Qed.

Lemma put_price_deriv_yield (S0 K T sigma r q : R) :
  0 < S0 -> 0 < K -> 0 < T -> 0 < sigma ->
  derivable_pt_lim (fun y => put_price S0 K T sigma r y) q
    (T * S0 * exp (- q * T) * Ncdf (- d1_of S0 K T sigma r q)).
Proof.
  intros HS HK HT Hs.
  apply (derivable_pt_lim_ext
           (fun y => call_price S0 K T sigma r y - S0 * exp (- y * T)
                     + K * exp (- r * T)));
    [intros z; symmetry; apply put_price_parity |].
  eapply dlim_val.
  - apply dlim_plus; [apply dlim_minus |];
      [apply call_price_deriv_yield; assumption | dlim_auto | dlim_auto].
  - cbv beta. rewrite Ncdf_opp. ring.
Qed.

Lemma put_price_deriv_vol (S0 K T sigma r q : R) :
  0 < S0 -> 0 < K -> 0 < T -> 0 < sigma ->
  derivable_pt_lim (fun y => put_price S0 K T y r q) sigma
    (S0 * exp (- q * T) * npdf (d1_of S0 K T sigma r q) * sqrt T).
Proof.
  intros HS HK HT Hs.
  apply (derivable_pt_lim_ext
           (fun y => call_price S0 K T y r q - S0 * exp (- q * T)
                     + K * exp (- r * T)));
    [intros z; symmetry; apply put_price_parity |].
  eapply dlim_val.
  - apply dlim_plus; [apply dlim_minus |];
      [apply call_price_deriv_vol; assumption | dlim_auto | dlim_auto].
  - cbv beta. ring.
Qed.

Lemma put_price_deriv_expiry (S0 K T sigma r q : R) :
  0 < S0 -> 0 < K -> 0 < T -> 0 < sigma ->
  derivable_pt_lim (fun y => put_price S0 K y sigma r q) T
    (- (- S0 * exp (- q * T) * npdf (d1_of S0 K T sigma r q) * sigma
          / (2 * sqrt T)
        - q * S0 * exp (- q * T) * Ncdf (- d1_of S0 K T sigma r q)
        + r * K * exp (- r * T) * Ncdf (- d2_of S0 K T sigma r q))).
Proof.
  intros HS HK HT Hs. pose proof (sqrt_lt_R0 T HT) as Hsq.
  apply (derivable_pt_lim_ext
           (fun y => call_price S0 K y sigma r q - S0 * exp (- q * y)
                     + K * exp (- r * y)));
    [intros z; symmetry; apply put_price_parity |].
  eapply dlim_val.
  - apply dlim_plus; [apply dlim_minus |];
      [apply call_price_deriv_expiry; assumption | dlim_auto | dlim_auto].
  - cbv beta. rewrite !Ncdf_opp. field. lra.
Qed.

(** The call delta differentiated in spot. *)
Lemma call_delta_deriv_spot (S0 K T sigma r q : R) :
  0 < S0 -> 0 < K -> 0 < T -> 0 < sigma ->
  derivable_pt_lim
    (fun y => exp (- q * T) * Ncdf (d1_of y K T sigma r q)) S0
    (exp (- q * T) * npdf (d1_of S0 K T sigma r q)
     / (S0 * sigma * sqrt T)).
Proof.
  intros HS HK HT Hs. pose proof (sqrt_lt_R0 T HT) as Hsq.
  eapply dlim_val.
  - apply dlim_scal, dlim_Ncdf.
    apply (d1_deriv_spot T sigma r q HT Hs S0 K HS HK).
  - cbv beta. field. lra.
Qed.

(** ** The Gaussian integral from below

    With right end points the auxiliary function is non-decreasing, which
    bounds [gauss_int] from below and shows that [erf] tends to [1]. *)

Lemma gauss_int_step_ge (u v : R) :
  0 <= u -> u <= v -> gauss v * (v - u) <= gauss_int v - gauss_int u.
Proof.
  intros Hu Huv.
  apply (increment_ge gauss_int gauss u v Huv).
  - intros c _. apply gauss_int_deriv.
  - intros c Hc. apply gauss_decr; lra.
Qed.

Section GaussLower.

Variable n : nat.

Lemma gauss_sq_aux_r_deriv (y : R) :
  derivable_pt_lim (gauss_sq_aux_r n) y
    (2 * gauss y *
     (gauss_int y
      - / INR (S n)
        * sum_f_R0 (fun i => gauss (y * node n (S i)) * y) n)).
Proof.
  eapply dlim_val.
  - unfold gauss_sq_aux_r.
    apply (derivable_pt_lim_plus
             (gauss_int * gauss_int)%F
             (mult_real_fct (/ INR (S n))
                (fun y => sum_f_R0 (fun i => aux_term n (S i) y) n))).
    + apply derivable_pt_lim_mult; apply gauss_int_deriv.
    + apply derivable_pt_lim_scal.
      apply (derivable_pt_lim_sum (fun i => aux_term n (S i))
               (fun i y => - 2 * gauss y * (gauss (y * node n (S i)) * y))).
      intros i. apply aux_term_deriv.
  - assert (Hs : sum_f_R0
                   (fun i => - 2 * gauss y * (gauss (y * node n (S i)) * y))
                   n
                 = - 2 * gauss y
                   * sum_f_R0 (fun i => gauss (y * node n (S i)) * y) n).
    { rewrite scal_sum. apply sum_eq. intros i _. ring. }
    rewrite Hs. ring.
Qed.

(** [gauss_int] is above the right Riemann sum on [[0,y]]. *)
Lemma gauss_int_right_sum (y : R) :
  0 <= y ->
  / INR (S n) * sum_f_R0 (fun i => gauss (y * node n (S i)) * y) n
  <= gauss_int y.
Proof.
  intros Hy.
  pose proof (sum_telescope (fun i => gauss_int (y * node n i)) n) as Htel.
  simpl in Htel.
  rewrite node_last, node_0, Rmult_1_r, Rmult_0_r, gauss_int_0,
    Rminus_0_r in Htel.
  rewrite <- Htel.
  rewrite scal_sum.
  apply sum_Rle. intros i _.
  pose proof (node_nonneg n i) as Hi.
  pose proof (node_step n i) as Hs.
  pose proof (cells_pos n) as HN.
  assert (HiN : 0 < / INR (S n)) by (apply Rinv_0_lt_compat; exact HN).
  pose proof (gauss_int_step_ge (y * node n i) (y * node n (S i))) as Hst.
  replace (gauss (y * node n (S i)) * y * / INR (S n))
    with (gauss (y * node n (S i)) * (y * node n (S i) - y * node n i)).
  - apply Hst; nra.
  - rewrite <- Rmult_minus_distr_l, Hs. ring.
Qed.

Lemma gauss_sq_aux_r_incr (y : R) :
  0 <= y -> gauss_sq_aux_r n 0 <= gauss_sq_aux_r n y.
Proof.
  intros Hy.
  apply (deriv_nonneg_incr (gauss_sq_aux_r n)
           (fun y => 2 * gauss y *
              (gauss_int y
               - / INR (S n)
                 * sum_f_R0 (fun i => gauss (y * node n (S i)) * y) n))
           0 y Hy).
  - intros c _. apply gauss_sq_aux_r_deriv.
  - intros c Hc.
    pose proof (gauss_int_right_sum c (Rlt_le _ _ (proj1 Hc))).
    pose proof (gauss_pos c). nra.
Qed.

Lemma atan_cell_r (i : nat) :
  (atan (node n (S i)) - atan (node n i))
  - / INR (S n) * (/ wgt n i - / wgt n (S i))
  <= / INR (S n) * / wgt n (S i).
Proof.
  pose proof (node_nonneg n i) as Hi.
  pose proof (node_step n i) as Hs.
  pose proof (cells_pos n) as HN.
  assert (HiN : 0 < / INR (S n)) by (apply Rinv_0_lt_compat; exact HN).
  assert (Hle : node n i <= node n (S i)) by lra.
  pose proof (increment_le atan (fun c => / (1 + c ^ 2))
                (node n i) (node n (S i)) Hle
                (fun c _ => derivable_pt_lim_atan c) (/ wgt n i)) as Hinc.
  rewrite Hs in Hinc.
  assert (Hcell : atan (node n (S i)) - atan (node n i)
                  <= / wgt n i * / INR (S n)).
  { apply Hinc. intros c Hc.
    apply Rinv_le_contravar.
    - apply wgt_pos.
    - unfold wgt, Rsqr. nra. }
  lra.
Qed.

Lemma gauss_sq_aux_r_0 : PI / 4 - / (2 * INR (S n)) <= gauss_sq_aux_r n 0.
Proof.
  unfold gauss_sq_aux_r. rewrite gauss_int_0, Rsqr_0, Rplus_0_l.
  assert (Heq : sum_f_R0 (fun i => aux_term n (S i) 0) n
                = sum_f_R0 (fun i => / wgt n (S i)) n).
  { apply sum_eq. intros i _. unfold aux_term.
    rewrite Rsqr_0, Rmult_0_r, exp_0. ring. }
  rewrite Heq, scal_sum.
  apply Rle_trans with
    (sum_f_R0 (fun i => (atan (node n (S i)) + / INR (S n) * / wgt n (S i))
                        - (atan (node n i) + / INR (S n) * / wgt n i)) n).
  - rewrite (sum_telescope
               (fun i => atan (node n i) + / INR (S n) * / wgt n i)).
    unfold wgt. rewrite node_last, node_0, atan_1, atan_0, Rsqr_0, Rsqr_1.
    pose proof (cells_pos n) as HN.
    right. field. lra.
  - apply sum_Rle. intros i _. pose proof (atan_cell_r i). lra.
Qed.

Lemma aux_term_le_gauss (i : nat) (y : R) : aux_term n i y <= gauss y.
Proof.
  unfold aux_term, gauss.
  pose proof (Rle_0_sqr (node n i)) as Hsq.
  assert (Hw : 1 <= wgt n i) by (unfold wgt; lra).
  assert (Hinv : / wgt n i <= 1).
  { rewrite <- Rinv_1. apply Rinv_le_contravar; lra. }
  assert (Hexp : exp (- wgt n i * Rsqr y) <= exp (- (y * y))).
  { destruct (Req_dec (- wgt n i * Rsqr y) (- (y * y))) as [-> | Hne].
    - apply Rle_refl.
    - left. apply exp_increasing.
      pose proof (Rle_0_sqr y). unfold Rsqr in *. nra. }
  pose proof (exp_pos (- wgt n i * Rsqr y)).
  assert (0 < / wgt n i) by (apply Rinv_0_lt_compat; lra).
  nra.
Qed.

Lemma gauss_int_sq_ge (y : R) :
  0 <= y -> PI / 4 - / (2 * INR (S n)) - gauss y <= Rsqr (gauss_int y).
Proof.
  intros Hy.
  pose proof (gauss_sq_aux_r_incr y Hy) as Hinc.
  pose proof gauss_sq_aux_r_0 as H0.
  pose proof (cells_pos n) as HN.
  assert (Hsum : / INR (S n) * sum_f_R0 (fun i => aux_term n (S i) y) n
                 <= gauss y).
  { apply Rle_trans with
      (/ INR (S n) * sum_f_R0 (fun _ => gauss y) n).
    - apply Rmult_le_compat_l.
      + left. apply Rinv_0_lt_compat, HN.
      + apply sum_Rle. intros i _. apply aux_term_le_gauss.
    - rewrite sum_cte. right. field. lra. }
  unfold gauss_sq_aux_r in Hinc at 2. lra.
Qed.

End GaussLower.

Lemma gauss_int_sq_lower (y : R) :
  0 <= y -> PI / 4 - gauss y <= Rsqr (gauss_int y).
Proof.
  intros Hy.
  destruct (Rle_dec (PI / 4 - gauss y) (Rsqr (gauss_int y))) as [H | H];
    [exact H |].
  exfalso.
  destruct (archimed_cor1 (PI / 4 - gauss y - Rsqr (gauss_int y)))
    as [m [Hm Hpos]]; [lra |].
  destruct m as [| m]; [lia |].
  pose proof (gauss_int_sq_ge m y Hy) as Hb.
  assert (HN : 0 < INR (S m)) by (apply lt_0_INR; lia).
  assert (/ (2 * INR (S m)) <= / INR (S m)).
  { apply Rinv_le_contravar; lra. }
  lra.
Qed.

Lemma erf_nonneg (x : R) : 0 <= x -> 0 <= erf x.
Proof.
  intros Hx. unfold erf. pose proof sqrt_PI_pos.
  apply Rmult_le_pos; [| apply gauss_int_nonneg, Hx].
  left. apply Rdiv_lt_0_compat; lra.
Qed.

(** [erf] approaches [1] at least as fast as [4/PI * exp(-x^2)] decays. *)
Lemma erf_upper_tail (x : R) : 0 <= x -> 1 - 4 / PI * gauss x <= erf x.
Proof.
  intros Hx.
  pose proof sqrt_PI_pos as Hs. pose proof PI_RGT_0 as Hpi.
  pose proof (sqrt_sqrt PI (Rlt_le _ _ Hpi)) as Hss.
  pose proof (gauss_int_sq_lower x Hx) as Hlow. unfold Rsqr in Hlow.
  pose proof (erf_nonneg x Hx) as H0. pose proof (erf_le_1 x) as H1.
  assert (Hsq : erf x * erf x = 4 / PI * (gauss_int x * gauss_int x)).
  { unfold erf. rewrite <- Hss at 3. field. lra. }
  assert (Hge : 1 - 4 / PI * gauss x <= erf x * erf x).
  { rewrite Hsq.
    replace (1 - 4 / PI * gauss x) with (4 / PI * (PI / 4 - gauss x))
      by (field; lra).
    apply Rmult_le_compat_l; [| exact Hlow].
    left. apply Rdiv_lt_0_compat; lra. }
  nra.
Qed.

Lemma Ncdf_lower_tail (x : R) :
  x <= 0 -> Ncdf x <= 2 / PI * exp (- (x * x) / 2).
Proof.
  intros Hx.
  assert (H2 : 0 < sqrt 2) by (apply sqrt_lt_R0; lra).
  pose proof (sqrt_sqrt 2) as Hs2. pose proof PI_RGT_0 as Hpi.
  assert (Hy : 0 <= - x / sqrt 2).
  { unfold Rdiv. apply Rmult_le_pos; [lra |].
    left. apply Rinv_0_lt_compat, H2. }
  pose proof (erf_upper_tail _ Hy) as Ht.
  unfold Ncdf.
  replace (x / sqrt 2) with (- (- x / sqrt 2)) by (field; lra).
  rewrite erf_odd.
  assert (Hg : gauss (- x / sqrt 2) = exp (- (x * x) / 2)).
  { unfold gauss. f_equal.
    replace (- x / sqrt 2 * (- x / sqrt 2))
      with (x * x / (sqrt 2 * sqrt 2)) by (field; lra).
    rewrite Hs2 by lra. field. }
  rewrite Hg in Ht.
  replace (2 / PI * exp (- (x * x) / 2))
    with (/ 2 * (4 / PI * exp (- (x * x) / 2))) by (field; lra).
  lra.
Qed.

(** ** Monotonicity and limits of the distribution function *)

Lemma Ncdf_strict_incr (u v : R) : u < v -> Ncdf u < Ncdf v.
Proof.
  intros Huv.
  destruct (MVT_cor2 Ncdf npdf u v Huv (fun c _ => Ncdf_deriv c))
    as [c [Hc _]].
  pose proof (npdf_pos c). nra.
Qed.

Lemma Ncdf_incr (u v : R) : u <= v -> Ncdf u <= Ncdf v.
Proof.
  intros [Hlt | ->]; [left; apply Ncdf_strict_incr, Hlt | apply Rle_refl].
Qed.

Lemma exp_neg_le_inv (y : R) : 0 <= y -> exp (- y) <= / (1 + y).
Proof.
  intros Hy. rewrite exp_Ropp.
  apply Rinv_le_contravar; [lra |].
  destruct Hy as [Hy | <-].
  - left. apply exp_ineq1. lra.
  - rewrite exp_0. lra.
Qed.

(** [Ncdf] is arbitrarily small far to the left. *)
Lemma Ncdf_vanishes (eps : R) :
  0 < eps -> exists A, forall u, u <= A -> Ncdf u <= eps.
Proof.
  intros Heps. exists (- (1 + / eps)). intros u Hu.
  assert (Hie : 0 < / eps) by (apply Rinv_0_lt_compat, Heps).
  apply Rle_trans with (Ncdf (- (1 + / eps))); [apply Ncdf_incr, Hu |].
  eapply Rle_trans; [apply Ncdf_lower_tail; lra |].
  set (y := - (1 + / eps) * - (1 + / eps) / 2).
  replace (- (- (1 + / eps) * - (1 + / eps)) / 2) with (- y)
    by (unfold y; field; lra).
  assert (Hy : / eps <= 1 + y) by (unfold y; nra).
  assert (Hy0 : 0 <= y) by (unfold y; nra).
  pose proof (exp_neg_le_inv y Hy0) as He.
  assert (Hinv : / (1 + y) <= eps).
  { rewrite <- (Rinv_inv eps). apply Rinv_le_contravar; lra. }
  pose proof PI_RGT_0 as Hpi. pose proof PI2_3_2 as Hpi2.
  pose proof (exp_pos (- y)) as Hep.
  assert (H2pi : 2 / PI <= 1).
  { apply Rmult_le_reg_r with PI; [lra |].
    replace (2 / PI * PI) with 2 by (field; lra).
    unfold PI2 in Hpi2. lra. }
  nra.
Qed.

(** ** Prices are nonnegative *)

Section Floors.

Variables Tt sg rr qq : R.
Hypothesis HT : 0 < Tt.
Hypothesis Hsg : 0 < sg.

Lemma put_price_incr_strike (x k1 k2 : R) :
  0 < x -> 0 < k1 -> k1 <= k2 ->
  put_price x k1 Tt sg rr qq <= put_price x k2 Tt sg rr qq.
Proof.
  intros Hx H1 H12.
  apply (deriv_nonneg_incr (fun y => put_price x y Tt sg rr qq)
           (fun y => exp (- rr * Tt) * Ncdf (- d2_of x y Tt sg rr qq))
           k1 k2 H12).
  - intros c Hc. apply put_price_deriv_strike; lra.
  - intros c _. apply Rmult_le_pos; [left; apply exp_pos | apply Ncdf_nonneg].
Qed.

Lemma put_price_decr_spot (x1 x2 k : R) :
  0 < x1 -> x1 <= x2 -> 0 < k ->
  put_price x2 k Tt sg rr qq <= put_price x1 k Tt sg rr qq.
Proof.
  intros H1 H12 Hk.
  apply (deriv_nonpos_decr (fun y => put_price y k Tt sg rr qq)
           (fun y => exp (- qq * Tt) * Ncdf (d1_of y k Tt sg rr qq)
                     - exp (- qq * Tt))
           x1 x2 H12).
  - intros c Hc. apply put_price_deriv_spot; lra.
  - intros c _. pose proof (Ncdf_le_1 (d1_of c k Tt sg rr qq)).
    pose proof (exp_pos (- qq * Tt)). nra.
Qed.

Lemma call_price_nonneg (x k : R) :
  0 < x -> 0 < k -> 0 <= call_price x k Tt sg rr qq.
Proof.
  intros Hx Hk.
  destruct (Rle_dec 0 (call_price x k Tt sg rr qq)) as [H | H];
    [exact H | exfalso].
  apply Rnot_le_lt in H.
  pose proof (vol_pos Tt sg HT Hsg) as Hv.
  set (s := sg * sqrt Tt) in *.
  set (m := (rr - qq + 0.5 * sg ^ 2) * Tt).
  pose proof (exp_pos (- rr * Tt)) as Her.
  pose proof (exp_pos (- qq * Tt)) as Heq.
  set (eps := - call_price x k Tt sg rr qq / (2 * (k * exp (- rr * Tt)))).
  assert (Heps : 0 < eps).
  { unfold eps. apply Rdiv_lt_0_compat; nra. }
  destruct (Ncdf_vanishes eps Heps) as [A HA].
  set (z := Rmin x (k * exp (s * (A + s) - m))).
  assert (Hzb : 0 < k * exp (s * (A + s) - m)).
  { apply Rmult_lt_0_compat; [exact Hk | apply exp_pos]. }
  assert (Hz : 0 < z) by (unfold z; apply Rmin_glb_lt; assumption).
  assert (Hzx : z <= x) by (unfold z; apply Rmin_l).
  assert (Hzk : z <= k * exp (s * (A + s) - m)) by (unfold z; apply Rmin_r).
  assert (Hln : ln (z / k) <= s * (A + s) - m).
  { rewrite <- (ln_exp (s * (A + s) - m)).
    assert (Hq : z / k <= exp (s * (A + s) - m)).
    { apply Rmult_le_reg_r with k; [exact Hk |].
      replace (z / k * k) with z by (field; lra). lra. }
    destruct Hq as [Hq | Hq].
    - left. apply ln_increasing; [| exact Hq].
      apply Rdiv_lt_0_compat; assumption.
    - rewrite Hq. apply Rle_refl. }
  assert (Hd2 : d2_of z k Tt sg rr qq <= A).
  { unfold d2_of, d1_of. fold s. fold m.
    apply Rmult_le_reg_r with s; [exact Hv |].
    replace (((ln (z / k) + m) / s - s) * s) with (ln (z / k) + m - s * s)
      by (field; lra).
    lra. }
  pose proof (HA _ Hd2) as Hsmall.
  pose proof (call_price_incr_spot Tt sg rr qq HT Hsg z x k Hz Hzx Hk) as Hmon.
  pose proof (Ncdf_nonneg (d1_of z k Tt sg rr qq)) as Hn1.
  assert (Hlow : - (k * exp (- rr * Tt)) * eps
                 <= call_price z k Tt sg rr qq).
  { unfold call_price.
    assert (0 <= z * exp (- qq * Tt) * Ncdf (d1_of z k Tt sg rr qq)).
    { apply Rmult_le_pos; [apply Rmult_le_pos; lra | exact Hn1]. }
    assert (k * exp (- rr * Tt) * Ncdf (d2_of z k Tt sg rr qq)
            <= k * exp (- rr * Tt) * eps).
    { apply Rmult_le_compat_l; [nra | exact Hsmall]. }
    lra. }
  assert (Hval : - (k * exp (- rr * Tt)) * eps
                 = call_price x k Tt sg rr qq / 2).
  { unfold eps. field. nra. }
  lra.
Qed.

Lemma put_price_nonneg (x k : R) :
  0 < x -> 0 < k -> 0 <= put_price x k Tt sg rr qq.
Proof.
  intros Hx Hk.
  destruct (Rle_dec 0 (put_price x k Tt sg rr qq)) as [H | H];
    [exact H | exfalso].
  apply Rnot_le_lt in H.
  pose proof (vol_pos Tt sg HT Hsg) as Hv.
  set (s := sg * sqrt Tt) in *.
  set (m := (rr - qq + 0.5 * sg ^ 2) * Tt).
  pose proof (exp_pos (- rr * Tt)) as Her.
  pose proof (exp_pos (- qq * Tt)) as Heq.
  set (eps := - put_price x k Tt sg rr qq / (2 * (x * exp (- qq * Tt)))).
  assert (Heps : 0 < eps).
  { unfold eps. apply Rdiv_lt_0_compat; nra. }
  destruct (Ncdf_vanishes eps Heps) as [A HA].
  set (z := Rmin k (x * exp (A * s + m))).
  assert (Hzb : 0 < x * exp (A * s + m)).
  { apply Rmult_lt_0_compat; [exact Hx | apply exp_pos]. }
  assert (Hz : 0 < z) by (unfold z; apply Rmin_glb_lt; assumption).
  assert (Hzk : z <= k) by (unfold z; apply Rmin_l).
  assert (Hzx : z <= x * exp (A * s + m)) by (unfold z; apply Rmin_r).
  assert (Hln : - (A * s + m) <= ln (x / z)).
  { rewrite <- (ln_exp (- (A * s + m))).
    assert (Hq : exp (- (A * s + m)) <= x / z).
    { rewrite exp_Ropp.
      apply Rmult_le_reg_r with (z * exp (A * s + m)).
      - apply Rmult_lt_0_compat; [exact Hz | apply exp_pos].
      - pose proof (exp_pos (A * s + m)).
        replace (/ exp (A * s + m) * (z * exp (A * s + m))) with z
          by (field; lra).
        replace (x / z * (z * exp (A * s + m))) with (x * exp (A * s + m))
          by (field; lra).
        exact Hzx. }
    destruct Hq as [Hq | Hq].
    - left. apply ln_increasing; [apply exp_pos | exact Hq].
    - rewrite Hq. apply Rle_refl. }
  assert (Hd1 : - d1_of x z Tt sg rr qq <= A).
  { unfold d1_of. fold s. fold m.
    apply Rmult_le_reg_r with s; [exact Hv |].
    replace (- ((ln (x / z) + m) / s) * s) with (- (ln (x / z) + m))
      by (field; lra).
    lra. }
  pose proof (HA _ Hd1) as Hsmall.
  pose proof (put_price_incr_strike x z k Hx Hz Hzk) as Hmon.
  pose proof (Ncdf_nonneg (- d2_of x z Tt sg rr qq)) as Hn2.
  assert (Hlow : - (x * exp (- qq * Tt)) * eps
                 <= put_price x z Tt sg rr qq).
  { unfold put_price.
    assert (0 <= z * exp (- rr * Tt) * Ncdf (- d2_of x z Tt sg rr qq)).
    { apply Rmult_le_pos; [apply Rmult_le_pos; lra | exact Hn2]. }
    assert (x * exp (- qq * Tt) * Ncdf (- d1_of x z Tt sg rr qq)
            <= x * exp (- qq * Tt) * eps).
    { apply Rmult_le_compat_l; [nra | exact Hsmall]. }
    lra. }
  assert (Hval : - (x * exp (- qq * Tt)) * eps
                 = put_price x k Tt sg rr qq / 2).
  { unfold eps. field. nra. }
  lra.
Qed.

End Floors.

(** ** The distribution primitives *)

(** X1.  [norm_pdf] never raises; it returns
    [exp(-0.5 x x) / sqrt(2 PI)], a value that is never negative, the same
    at [x] and [-x], and largest at [0]. *)
Theorem norm_pdf_total (x : R) :
  exists p p0,
    norm_pdf x = Ok p
    /\ norm_pdf (- x) = Ok p
    /\ norm_pdf 0 = Ok p0
    /\ p = exp (- 0.5 * x * x) / sqrt (2 * PI)
    /\ 0 <= p <= p0.
Proof.
  exists (npdf x), (npdf 0).
  assert (Heven : npdf (- x) = npdf x).
  { unfold npdf. do 2 f_equal. ring. }
  assert (Hs : 0 < sqrt (2 * PI)).
  { apply sqrt_lt_R0. pose proof PI_RGT_0. lra. }
  repeat split.
  - apply norm_pdf_eq.
  - rewrite norm_pdf_eq, Heven. reflexivity.
  - apply norm_pdf_eq.
  - left. apply npdf_pos.
  - unfold npdf, Rdiv.
    apply Rmult_le_compat_r; [left; apply Rinv_0_lt_compat, Hs |].
    replace (-0.5 * 0 * 0) with 0 by lra.
    destruct (Req_dec (-0.5 * x * x) 0) as [-> | Hne]; [apply Rle_refl |].
    left. apply exp_increasing. nra.
Qed.

(** X2.  [norm_cdf (-x) + norm_cdf x = 1] and
    [norm_cdf 0 = 0.5]. *)
Theorem norm_cdf_reflection (x : R) :
  exists a b,
    norm_cdf x = Ok a /\ norm_cdf (- x) = Ok b /\ a + b = 1
    /\ norm_cdf 0 = Ok 0.5.
Proof.
  exists (Ncdf x), (Ncdf (- x)). repeat split.
  - apply norm_cdf_eq.
  - apply norm_cdf_eq.
  - rewrite Ncdf_opp. ring.
  - rewrite norm_cdf_eq, Ncdf_0. reflexivity.
Qed.

(** X4.  The value [norm_pdf] returns at [x] is the derivative at
    [x] of the value [norm_cdf] returns. *)
Theorem norm_pdf_is_cdf_slope (x : R) :
  derivable_pt_lim (fun y => value (norm_cdf y)) x (value (norm_pdf x)).
Proof.
  rewrite norm_pdf_eq. simpl.
  apply (derivable_pt_lim_ext Ncdf).
  - intros z. rewrite norm_cdf_eq. reflexivity.
  - apply Ncdf_deriv.
Qed.

(** X5.  [norm_cdf] saturates: to the left of [0] its value is at
    most [2/PI * exp(-x^2/2)], to the right at least one minus that. *)
Theorem norm_cdf_tails (x : R) :
  exists v,
    norm_cdf x = Ok v
    /\ (x <= 0 -> v <= 2 / PI * exp (- (x * x) / 2))
    /\ (0 <= x -> 1 - 2 / PI * exp (- (x * x) / 2) <= v).
Proof.
  exists (Ncdf x). split; [apply norm_cdf_eq | split].
  - apply Ncdf_lower_tail.
  - intros Hx.
    assert (Hneg : - x <= 0) by lra.
    pose proof (Ncdf_lower_tail (- x) Hneg) as Ht.
    rewrite Ncdf_opp in Ht.
    replace (- x * - x) with (x * x) in Ht by ring. lra.
Qed.

Lemma norm_cdf_tails_witness :
  exists v, norm_cdf (-3) = Ok v /\ v <= 2 / PI * exp (- (-3 * -3) / 2).
Proof.
  destruct (norm_cdf_tails (-3)) as (v & Hv & Hleft & _).
  exists v. split; [exact Hv |].
  apply Hleft. lra.
Defined.

(** ** The engine's outputs as functions of one input *)

Lemma returned_closed (f : BSMOutputs -> R) (i : BSMInputs) (b : Z) :
  evaluable i b ->
  returned f (price_and_greeks_bsm i b) = f (closed_form i b).
Proof. intros Hev. rewrite (eval_closed_form i b Hev). reflexivity. Qed.

Lemma closed_form_price (i : BSMInputs) (b : Z) :
  price (closed_form i b)
  = bs_price (String.eqb (opt_type i) "call") (S0 i) (K i)
      (guard_T (T i)) (guard_sigma (sigma i)) (r i) (q i).
Proof.
  unfold closed_form, bs_price.
  destruct (String.eqb (opt_type i) "call"); reflexivity.
Qed.

Lemma closed_form_delta (i : BSMInputs) (b : Z) :
  delta (closed_form i b)
  = bs_delta (String.eqb (opt_type i) "call") (S0 i) (K i)
      (guard_T (T i)) (guard_sigma (sigma i)) (r i) (q i).
Proof.
  unfold closed_form, bs_delta.
  destruct (String.eqb (opt_type i) "call"); reflexivity.
Qed.

Lemma guard_T_pos (t : R) : 0 < guard_T t.
Proof. pose proof (guard_T_floor t). lra. Qed.

Lemma guard_sigma_pos (s : R) : 0 < guard_sigma s.
Proof. pose proof (guard_sigma_floor s). lra. Qed.

(** X6.  For positive spot and strike and a non-zero basis, the
    returned [delta] is the derivative of the returned price in [S0], for
    either option type. *)
Theorem delta_is_spot_slope (i : BSMInputs) (theta_basis : Z) :
  0 < S0 i -> 0 < K i -> theta_basis <> 0%Z ->
  exists out,
    price_and_greeks_bsm i theta_basis = Ok out
    /\ derivable_pt_lim
         (fun x => returned price
                     (price_and_greeks_bsm (with_S0 i x) theta_basis))
         (S0 i) (delta out).
Proof.
  intros HS HK Hb.
  pose proof (guard_T_pos (T i)) as HT.
  pose proof (guard_sigma_pos (sigma i)) as Hsg.
  exists (closed_form i theta_basis). split.
  { apply eval_closed_form, evaluable_pos; assumption. }
  apply (derivable_pt_lim_locally_ext
           (fun x => bs_price (String.eqb (opt_type i) "call") x (K i)
                       (guard_T (T i)) (guard_sigma (sigma i)) (r i) (q i))
           _ (S0 i) 0 (S0 i + 1)); [lra | |].
  - intros z Hz. rewrite returned_closed, closed_form_price; [reflexivity |].
    apply evaluable_pos; simpl; [lra | assumption | assumption].
  - unfold closed_form, bs_price.
    destruct (String.eqb (opt_type i) "call"); simpl.
    + apply (call_price_deriv_spot _ _ _ _ HT Hsg); assumption.
    + apply put_price_deriv_spot; assumption.
Qed.

Lemma delta_is_spot_slope_witness :
  exists out,
    price_and_greeks_bsm example_inputs 365 = Ok out
    /\ derivable_pt_lim
         (fun x => returned price
                     (price_and_greeks_bsm (with_S0 example_inputs x) 365))
         (S0 example_inputs) (delta out).
Proof.
  apply delta_is_spot_slope; simpl; [lra | lra | discriminate].
Defined.

(** X7.  Under the same conditions the returned [gamma] is the
    derivative of the returned delta in [S0]. *)
Theorem gamma_is_delta_slope (i : BSMInputs) (theta_basis : Z) :
  0 < S0 i -> 0 < K i -> theta_basis <> 0%Z ->
  exists out,
    price_and_greeks_bsm i theta_basis = Ok out
    /\ derivable_pt_lim
         (fun x => returned delta
                     (price_and_greeks_bsm (with_S0 i x) theta_basis))
         (S0 i) (gamma out).
Proof.
  intros HS HK Hb.
  pose proof (guard_T_pos (T i)) as HT.
  pose proof (guard_sigma_pos (sigma i)) as Hsg.
  exists (closed_form i theta_basis). split.
  { apply eval_closed_form, evaluable_pos; assumption. }
  apply (derivable_pt_lim_locally_ext
           (fun x => bs_delta (String.eqb (opt_type i) "call") x (K i)
                       (guard_T (T i)) (guard_sigma (sigma i)) (r i) (q i))
           _ (S0 i) 0 (S0 i + 1)); [lra | |].
  - intros z Hz. rewrite returned_closed, closed_form_delta; [reflexivity |].
    apply evaluable_pos; simpl; [lra | assumption | assumption].
  - unfold closed_form, bs_delta.
    destruct (String.eqb (opt_type i) "call"); simpl.
    + apply call_delta_deriv_spot; assumption.
    + eapply dlim_val.
      * apply dlim_minus;
          [apply call_delta_deriv_spot; assumption | apply dlim_const].
      * ring.
Qed.

Lemma gamma_is_delta_slope_witness :
  exists out,
    price_and_greeks_bsm example_inputs 365 = Ok out
    /\ derivable_pt_lim
         (fun x => returned delta
                     (price_and_greeks_bsm (with_S0 example_inputs x) 365))
         (S0 example_inputs) (gamma out).
Proof.
  apply gamma_is_delta_slope; simpl; [lra | lra | discriminate].
Defined.

(** X8.  Above the volatility floor, the returned [vega_per_vol] is the
    derivative of the returned price in [sigma], for either option type. *)
Theorem vega_is_vol_slope (i : BSMInputs) (theta_basis : Z) :
  0 < S0 i -> 0 < K i -> theta_basis <> 0%Z -> 1e-8 < sigma i ->
  exists out,
    price_and_greeks_bsm i theta_basis = Ok out
    /\ derivable_pt_lim
         (fun x => returned price
                     (price_and_greeks_bsm (with_sigma i x) theta_basis))
         (sigma i) (vega_per_vol out).
Proof.
  intros HS HK Hb Hfl.
  pose proof (guard_T_pos (T i)) as HT.
  exists (closed_form i theta_basis). split.
  { apply eval_closed_form, evaluable_pos; assumption. }
  apply (derivable_pt_lim_locally_ext
           (fun x => bs_price (String.eqb (opt_type i) "call") (S0 i) (K i)
                       (guard_T (T i)) x (r i) (q i))
           _ (sigma i) 1e-8 (sigma i + 1)); [lra | |].
  - intros z Hz. rewrite returned_closed, closed_form_price.
    + simpl. rewrite guard_sigma_above by lra. reflexivity.
    + apply evaluable_with_sigma, evaluable_pos; assumption.
  - unfold closed_form, bs_price. rewrite guard_sigma_above by lra.
    destruct (String.eqb (opt_type i) "call"); simpl.
    + apply call_price_deriv_vol; (assumption || lra).
    + apply put_price_deriv_vol; (assumption || lra).
Qed.

Lemma vega_is_vol_slope_witness :
  exists out,
    price_and_greeks_bsm example_inputs 365 = Ok out
    /\ derivable_pt_lim
         (fun x => returned price
                     (price_and_greeks_bsm (with_sigma example_inputs x) 365))
         (sigma example_inputs) (vega_per_vol out).
Proof.
  apply vega_is_vol_slope; simpl; [lra | lra | discriminate | lra].
Defined.

(** X9.  The returned [rho_per_1] is the derivative of the returned
    price in [r], for either option type. *)
Theorem rho_is_rate_slope (i : BSMInputs) (theta_basis : Z) :
  0 < S0 i -> 0 < K i -> theta_basis <> 0%Z ->
  exists out,
    price_and_greeks_bsm i theta_basis = Ok out
    /\ derivable_pt_lim
         (fun x => returned price
                     (price_and_greeks_bsm (with_r i x) theta_basis))
         (r i) (rho_per_1 out).
Proof.
  intros HS HK Hb.
  pose proof (guard_T_pos (T i)) as HT.
  pose proof (guard_sigma_pos (sigma i)) as Hsg.
  exists (closed_form i theta_basis). split.
  { apply eval_closed_form, evaluable_pos; assumption. }
  apply (derivable_pt_lim_ext
           (fun x => bs_price (String.eqb (opt_type i) "call") (S0 i) (K i)
                       (guard_T (T i)) (guard_sigma (sigma i)) x (q i))).
  - intros z. rewrite returned_closed, closed_form_price; [reflexivity |].
    apply evaluable_pos; assumption.
  - unfold closed_form, bs_price.
    destruct (String.eqb (opt_type i) "call"); simpl.
    + apply call_price_deriv_rate; assumption.
    + apply put_price_deriv_rate; assumption.
Qed.

Lemma rho_is_rate_slope_witness :
  exists out,
    price_and_greeks_bsm example_inputs 365 = Ok out
    /\ derivable_pt_lim
         (fun x => returned price
                     (price_and_greeks_bsm (with_r example_inputs x) 365))
         (r example_inputs) (rho_per_1 out).
Proof.
  apply rho_is_rate_slope; simpl; [lra | lra | discriminate].
Defined.

(** X10.  The returned [phi_per_1] is the derivative of the returned
    price in [q], for either option type. *)
Theorem phi_is_yield_slope (i : BSMInputs) (theta_basis : Z) :
  0 < S0 i -> 0 < K i -> theta_basis <> 0%Z ->
  exists out,
    price_and_greeks_bsm i theta_basis = Ok out
    /\ derivable_pt_lim
         (fun x => returned price
                     (price_and_greeks_bsm (with_q i x) theta_basis))
         (q i) (phi_per_1 out).
Proof.
  intros HS HK Hb.
  pose proof (guard_T_pos (T i)) as HT.
  pose proof (guard_sigma_pos (sigma i)) as Hsg.
  exists (closed_form i theta_basis). split.
  { apply eval_closed_form, evaluable_pos; assumption. }
  apply (derivable_pt_lim_ext
           (fun x => bs_price (String.eqb (opt_type i) "call") (S0 i) (K i)
                       (guard_T (T i)) (guard_sigma (sigma i)) (r i) x)).
  - intros z. rewrite returned_closed, closed_form_price; [reflexivity |].
    apply evaluable_pos; assumption.
  - unfold closed_form, bs_price.
    destruct (String.eqb (opt_type i) "call"); simpl.
    + apply call_price_deriv_yield; assumption.
    + apply put_price_deriv_yield; assumption.
Qed.

Lemma phi_is_yield_slope_witness :
  exists out,
    price_and_greeks_bsm example_inputs 365 = Ok out
    /\ derivable_pt_lim
         (fun x => returned price
                     (price_and_greeks_bsm (with_q example_inputs x) 365))
         (q example_inputs) (phi_per_1 out).
Proof.
  apply phi_is_yield_slope; simpl; [lra | lra | discriminate].
Defined.

(** X11.  Above the expiry floor, the derivative of the returned price
    in the time to expiry [T] is the opposite of the returned
    [theta_per_year], for either option type. *)
Theorem theta_is_expiry_slope (i : BSMInputs) (theta_basis : Z) :
  0 < S0 i -> 0 < K i -> theta_basis <> 0%Z -> 1e-6 < T i ->
  exists out,
    price_and_greeks_bsm i theta_basis = Ok out
    /\ derivable_pt_lim
         (fun x => returned price
                     (price_and_greeks_bsm (with_T i x) theta_basis))
         (T i) (- theta_per_year out).
Proof.
  intros HS HK Hb Hfl.
  pose proof (guard_sigma_pos (sigma i)) as Hsg.
  exists (closed_form i theta_basis). split.
  { apply eval_closed_form, evaluable_pos; assumption. }
  apply (derivable_pt_lim_locally_ext
           (fun x => bs_price (String.eqb (opt_type i) "call") (S0 i) (K i)
                       x (guard_sigma (sigma i)) (r i) (q i))
           _ (T i) 1e-6 (T i + 1)); [lra | |].
  - intros z Hz. rewrite returned_closed, closed_form_price.
    + simpl. rewrite guard_T_above by lra. reflexivity.
    + apply evaluable_with_T, evaluable_pos; assumption.
  - unfold closed_form, bs_price. rewrite guard_T_above by lra.
    destruct (String.eqb (opt_type i) "call"); simpl.
    + apply call_price_deriv_expiry; (assumption || lra).
    + apply put_price_deriv_expiry; (assumption || lra).
Qed.

Lemma theta_is_expiry_slope_witness :
  exists out,
    price_and_greeks_bsm example_inputs 365 = Ok out
    /\ derivable_pt_lim
         (fun x => returned price
                     (price_and_greeks_bsm (with_T example_inputs x) 365))
         (T example_inputs) (- theta_per_year out).
Proof.
  apply theta_is_expiry_slope; simpl; [lra | lra | discriminate | lra].
Defined.

(** ** Further properties of the engine *)

(** X12.  For positive spot and strike the returned prices respect the
    upper no-arbitrage bounds: a call is worth at most [S0 exp(-qT)], a put
    at most [K exp(-rT)], [T] guarded; with a non-zero basis both
    evaluations return. *)
Theorem price_bounds (i : BSMInputs) (theta_basis : Z) :
  0 < S0 i -> 0 < K i ->
  let fwd := S0 i * exp (- q i * guard_T (T i)) in
  let strike := K i * exp (- r i * guard_T (T i)) in
  (theta_basis <> 0%Z ->
   exists c p,
     price_and_greeks_bsm (with_opt_type i "call") theta_basis = Ok c
     /\ price_and_greeks_bsm (with_opt_type i "put") theta_basis = Ok p)
  /\
  (forall c,
     price_and_greeks_bsm (with_opt_type i "call") theta_basis = Ok c ->
     price c <= fwd)
  /\
  (forall p,
     price_and_greeks_bsm (with_opt_type i "put") theta_basis = Ok p ->
     price p <= strike).
Proof.
  intros HS HK fwd strike.
  pose proof (exp_pos (- q i * guard_T (T i))) as Heq.
  pose proof (exp_pos (- r i * guard_T (T i))) as Her.
  assert (Hf : 0 <= S0 i * exp (- q i * guard_T (T i))) by nra.
  assert (Hk : 0 <= K i * exp (- r i * guard_T (T i))) by nra.
  split; [| split].
  - intros Hb. do 2 eexists. split; apply eval_closed_form;
      apply evaluable_with_opt_type, evaluable_pos; assumption.
  - intros c Hc.
    destruct (eval_Ok_inv _ _ _ Hc) as [_ ->].
    unfold closed_form, fwd. simpl.
    match goal with |- _ * _ * Ncdf ?a - _ * _ * Ncdf ?b <= _ =>
      pose proof (Ncdf_le_1 a); pose proof (Ncdf_nonneg b) end.
    nra.
  - intros p Hp.
    destruct (eval_Ok_inv _ _ _ Hp) as [_ ->].
    unfold closed_form, strike. simpl.
    match goal with |- _ * _ * Ncdf ?a - _ * _ * Ncdf ?b <= _ =>
      pose proof (Ncdf_le_1 a); pose proof (Ncdf_nonneg b) end.
    nra.
Qed.

Lemma price_bounds_witness :
  exists c,
    price_and_greeks_bsm (with_opt_type example_inputs "call") 365 = Ok c
    /\ price c
       <= S0 example_inputs
          * exp (- q example_inputs * guard_T (T example_inputs)).
Proof.
  assert (HS : 0 < S0 example_inputs) by (simpl; lra).
  assert (HK : 0 < K example_inputs) by (simpl; lra).
  destruct (price_bounds example_inputs 365 HS HK) as (Hex & Hcall & _).
  destruct Hex as (c & p & Hc & Hp); [discriminate |].
  exists c. split; [exact Hc | exact (Hcall c Hc)].
Defined.

Lemma guard_sigma_mono (s1 s2 : R) :
  s1 <= s2 -> guard_sigma s1 <= guard_sigma s2.
Proof.
  intros H. unfold guard_sigma.
  destruct (Rlt_dec s1 1e-8), (Rlt_dec s2 1e-8); lra.
Qed.

Lemma bs_price_incr_vol (c : bool) (S0 K T s1 s2 r q : R) :
  0 < S0 -> 0 < K -> 0 < T -> 0 < s1 -> s1 <= s2 ->
  bs_price c S0 K T s1 r q <= bs_price c S0 K T s2 r q.
Proof.
  intros HS HK HT H1 H12.
  apply (deriv_nonneg_incr (fun y => bs_price c S0 K T y r q)
           (fun y => S0 * exp (- q * T) * npdf (d1_of S0 K T y r q) * sqrt T)
           s1 s2 H12).
  - intros y Hy. unfold bs_price. destruct c.
    + apply call_price_deriv_vol; (assumption || lra).
    + apply put_price_deriv_vol; (assumption || lra).
  - intros y _.
    pose proof (exp_pos (- q * T)). pose proof (sqrt_lt_R0 T HT).
    pose proof (npdf_pos (d1_of S0 K T y r q)).
    apply Rmult_le_pos; [apply Rmult_le_pos; [nra | lra] | lra].
Qed.

Lemma closed_form_gamma_vega_pos (i : BSMInputs) (b : Z) :
  0 < S0 i ->
  0 < gamma (closed_form i b) /\ 0 < vega_per_vol (closed_form i b).
Proof.
  intros Hpos.
  pose proof (guard_sigma_pos (sigma i)) as Hsg.
  pose proof (sqrt_guard_T_pos (T i)) as Hsq.
  pose proof (exp_pos (- q i * guard_T (T i))) as He.
  unfold closed_form. simpl.
  match goal with |- 0 < _ * npdf ?d / _ /\ _ =>
    pose proof (npdf_pos d) as Hn end.
  split.
  - apply Rdiv_lt_0_compat; [nra |].
    apply Rmult_lt_0_compat; [nra | exact Hsq].
  - apply Rmult_lt_0_compat; [| exact Hsq].
    apply Rmult_lt_0_compat; [nra | exact Hn].
Qed.

(** X16.  For a positive spot, the [gamma] and [vega_per_vol] of every
    returned record are never negative, for either option type. *)
Theorem gamma_vega (i : BSMInputs) (theta_basis : Z) :
  (evaluable i theta_basis ->
   exists out, price_and_greeks_bsm i theta_basis = Ok out)
  /\
  (forall out, price_and_greeks_bsm i theta_basis = Ok out ->
     0 < S0 i -> 0 <= gamma out /\ 0 <= vega_per_vol out).
Proof.
  split.
  - intros Hev. eexists. apply eval_closed_form, Hev.
  - intros out Hout HS.
    destruct (eval_Ok_inv _ _ _ Hout) as [_ ->].
    destruct (closed_form_gamma_vega_pos i theta_basis HS) as [Hg Hv].
    split; left; assumption.
Qed.

Lemma gamma_vega_witness :
  exists out,
    price_and_greeks_bsm example_inputs 365 = Ok out
    /\ 0 <= gamma out /\ 0 <= vega_per_vol out.
Proof.
  destruct (gamma_vega example_inputs 365) as (Hex & Hall).
  destruct (Hex evaluable_example) as (out & Hout).
  exists out. split; [exact Hout |].
  apply (Hall out Hout). simpl. lra.
Defined.

(** X18.  The basis enters [theta_per_day] only: records returned for two
    bases agree on the ten other fields. *)
Theorem basis_only_in_theta_per_day (i : BSMInputs) (b1 b2 : Z) :
  (evaluable i b1 -> b2 <> 0%Z ->
   exists o1 o2,
     price_and_greeks_bsm i b1 = Ok o1 /\ price_and_greeks_bsm i b2 = Ok o2)
  /\
  (forall o1 o2,
     price_and_greeks_bsm i b1 = Ok o1 ->
     price_and_greeks_bsm i b2 = Ok o2 ->
     price o1 = price o2 /\ delta o1 = delta o2 /\ gamma o1 = gamma o2
     /\ vega_per_vol o1 = vega_per_vol o2
     /\ vega_per_volpt o1 = vega_per_volpt o2
     /\ theta_per_year o1 = theta_per_year o2
     /\ rho_per_1 o1 = rho_per_1 o2 /\ rho_per_bp o1 = rho_per_bp o2
     /\ phi_per_1 o1 = phi_per_1 o2 /\ phi_per_bp o1 = phi_per_bp o2).
Proof.
  split.
  - intros (HK & Hpos & Hb1) Hb2. do 2 eexists.
    split; apply eval_closed_form; repeat split; assumption.
  - intros o1 o2 Ho1 Ho2.
    destruct (eval_Ok_inv _ _ _ Ho1) as [_ ->].
    destruct (eval_Ok_inv _ _ _ Ho2) as [_ ->].
    unfold closed_form. simpl.
    repeat split; reflexivity.
Qed.

Lemma basis_only_in_theta_per_day_witness :
  exists o1 o2,
    price_and_greeks_bsm example_inputs 365 = Ok o1
    /\ price_and_greeks_bsm example_inputs 252 = Ok o2
    /\ price o1 = price o2
    /\ theta_per_year o1 = theta_per_year o2.
Proof.
  destruct (basis_only_in_theta_per_day example_inputs 365 252)
    as (Hex & Hall).
  assert (Hb : 252%Z <> 0%Z) by discriminate.
  destruct (Hex evaluable_example Hb) as (o1 & o2 & Ho1 & Ho2).
  destruct (Hall o1 o2 Ho1 Ho2) as (Hp & _ & _ & _ & _ & Ht & _).
  exists o1, o2. repeat split; assumption.
Defined.

(** X19.  For positive spot and strike: a returned call has
    [rho_per_1 >= 0] and [phi_per_1 <= 0], a returned put has
    [rho_per_1 <= 0] and [phi_per_1 >= 0]. *)
Theorem rho_phi_signs (i : BSMInputs) (theta_basis : Z) :
  0 < S0 i -> 0 < K i ->
  (theta_basis <> 0%Z ->
   exists c p,
     price_and_greeks_bsm (with_opt_type i "call") theta_basis = Ok c
     /\ price_and_greeks_bsm (with_opt_type i "put") theta_basis = Ok p)
  /\
  (forall c,
     price_and_greeks_bsm (with_opt_type i "call") theta_basis = Ok c ->
     0 <= rho_per_1 c /\ phi_per_1 c <= 0)
  /\
  (forall p,
     price_and_greeks_bsm (with_opt_type i "put") theta_basis = Ok p ->
     rho_per_1 p <= 0 /\ 0 <= phi_per_1 p).
Proof.
  intros HS HK.
  pose proof (guard_T_pos (T i)) as HT.
  pose proof (exp_pos (- q i * guard_T (T i))) as Heq.
  pose proof (exp_pos (- r i * guard_T (T i))) as Her.
  assert (Hpos : forall a b e n : R,
             0 < a -> 0 < b -> 0 < e -> 0 <= n -> 0 <= a * b * e * n).
  { intros a b e n Ha Hb0 He Hn.
    apply Rmult_le_pos; [| exact Hn].
    left. repeat apply Rmult_lt_0_compat; assumption. }
  split; [| split].
  - intros Hb. do 2 eexists. split; apply eval_closed_form;
      apply evaluable_with_opt_type, evaluable_pos; assumption.
  - intros c Hc.
    destruct (eval_Ok_inv _ _ _ Hc) as [_ ->].
    unfold closed_form. simpl.
    match goal with |- 0 <= _ * Ncdf ?a /\ _ * Ncdf ?b <= 0 =>
      pose proof (Hpos _ _ _ _ HK HT Her (Ncdf_nonneg a));
      pose proof (Hpos _ _ _ _ HT HS Heq (Ncdf_nonneg b)) end.
    split; lra.
  - intros p Hp.
    destruct (eval_Ok_inv _ _ _ Hp) as [_ ->].
    unfold closed_form. simpl.
    match goal with |- _ * Ncdf ?a <= 0 /\ 0 <= _ * Ncdf ?b =>
      pose proof (Hpos _ _ _ _ HK HT Her (Ncdf_nonneg a));
      pose proof (Hpos _ _ _ _ HT HS Heq (Ncdf_nonneg b)) end.
    split; lra.
Qed.

Lemma rho_phi_signs_witness :
  exists c,
    price_and_greeks_bsm (with_opt_type example_inputs "call") 365 = Ok c
    /\ 0 <= rho_per_1 c /\ phi_per_1 c <= 0.
Proof.
  assert (HS : 0 < S0 example_inputs) by (simpl; lra).
  assert (HK : 0 < K example_inputs) by (simpl; lra).
  destruct (rho_phi_signs example_inputs 365 HS HK) as (Hex & Hcall & _).
  destruct Hex as (c & p & Hc & Hp); [discriminate |].
  exists c. split; [exact Hc | exact (Hcall c Hc)].
Defined.

(** X20.  Where a guard is active the returned price does not respond to
    the guarded input: its derivative in [sigma] is [0] at every
    [sigma < 1e-8], and in [T] at every [T < 1e-6]. *)
Theorem flat_below_floors (i : BSMInputs) (theta_basis : Z) :
  (sigma i < 1e-8 ->
   derivable_pt_lim
     (fun x => returned price
                 (price_and_greeks_bsm (with_sigma i x) theta_basis))
     (sigma i) 0)
  /\
  (T i < 1e-6 ->
   derivable_pt_lim
     (fun x => returned price
                 (price_and_greeks_bsm (with_T i x) theta_basis))
     (T i) 0).
Proof.
  split.
  - intros Hlow.
    apply (derivable_pt_lim_locally_ext
             (fun _ => returned price
                         (price_and_greeks_bsm (with_sigma i 1e-8)
                            theta_basis))
             _ (sigma i) (sigma i - 1) 1e-8); [lra | | apply dlim_const].
    intros z Hz. f_equal. apply eval_guard_ext; try reflexivity. simpl.
    rewrite (guard_sigma_below z), guard_sigma_above; [reflexivity | |]; lra.
  - intros Hlow.
    apply (derivable_pt_lim_locally_ext
             (fun _ => returned price
                         (price_and_greeks_bsm (with_T i 1e-6) theta_basis))
             _ (T i) (T i - 1) 1e-6); [lra | | apply dlim_const].
    intros z Hz. f_equal. apply eval_guard_ext; try reflexivity. simpl.
    rewrite (guard_T_below z), guard_T_above; [reflexivity | |]; lra.
Qed.

Lemma flat_below_floors_witness :
  derivable_pt_lim
    (fun x => returned price
                (price_and_greeks_bsm
                   (with_sigma (with_sigma example_inputs 0) x) 365))
    0 0.
Proof.
  destruct (flat_below_floors (with_sigma example_inputs 0) 365)
    as (Hflat & _).
  apply Hflat. simpl. lra.
Defined.
